(** * A shallow embedding of tilt's fake Docker Compose client

    Source: [internal/dockercompose/fake_client.go].

    The client is a test double.  Its lifecycle calls ([Up], [Down], [Rm])
    record their arguments, [StreamLogs] writes a framed log stream into a
    pipe from a goroutine, [StreamEvents]/[SendEvent] move serialized events
    through two bounded channels, [Project] derives a project name from the
    working directory and [Version] reports a version string.

    Go strings are byte sequences; they are modelled by [string], whose
    characters ([ascii]) are the bytes.  Functions of Go's standard library
    that the client calls ([strings], [unicode], [unicode/utf8],
    [path/filepath], and the one regular expression it compiles) are written
    out below at the byte level; what lies outside the repository and cannot
    be written out (the wall clock, the Unicode case tables, [json.Marshal] on
    the [Event] type) is a parameter, packed in a class. *)

From Stdlib Require Import ZArith Zbitwise Bool Ascii String List Lia.
From stdpp Require Import base option list strings gmap.

Local Open Scope string_scope.

(** ** Bytes, runes and UTF-8 ([unicode/utf8]) *)

Module utf8.

Local Open Scope Z_scope.

Definition byte_val (c : ascii) : Z := Z.of_N (N_of_ascii c).

(** [byte(x)]: conversion of an integer to a byte keeps the low 8 bits. *)
Definition to_byte (x : Z) : ascii := ascii_of_N (Z.to_N (x mod 256)).

Definition RuneError : Z := 0xFFFD.
Definition RuneSelf : Z := 0x80.
Definition MaxRune : Z := 0x10FFFF.
Definition UTFMax : nat := 4.

Definition surrogateMin : Z := 0xD800.
Definition surrogateMax : Z := 0xDFFF.

Definition maskx : Z := 0x3F.
Definition mask2 : Z := 0x1F.
Definition mask3 : Z := 0x0F.
Definition mask4 : Z := 0x07.

Definition locb : Z := 0x80.
Definition hicb : Z := 0xBF.

Definition rune1Max : Z := 0x7F.
Definition rune2Max : Z := 0x7FF.
Definition rune3Max : Z := 0xFFFF.

(** An entry of the table [first]: information about the first byte of an
    encoding.  [AS] is an ASCII byte, [XX] an invalid first byte, and
    [Lead sz lo hi] a leading byte of a [sz]-byte encoding whose second
    byte must lie in [lo..hi] (the table [acceptRanges]). *)
Inductive firstInfo : Type :=
| AS
| XX
| Lead (sz : nat) (lo hi : Z).

Definition first (b : Z) : firstInfo :=
  if b <? 0x80 then AS
  else if b <? 0xC2 then XX
  else if b <? 0xE0 then Lead 2 locb hicb
  else if b =? 0xE0 then Lead 3 0xA0 hicb
  else if b <? 0xED then Lead 3 locb hicb
  else if b =? 0xED then Lead 3 locb 0x9F
  else if b <? 0xF0 then Lead 3 locb hicb
  else if b =? 0xF0 then Lead 4 0x90 hicb
  else if b <? 0xF4 then Lead 4 locb hicb
  else if b =? 0xF4 then Lead 4 locb 0x8F
  else XX.

Definition is_cont (b : Z) : bool := negb ((b <? locb) || (hicb <? b)).

(** [utf8.DecodeRuneInString]: the first rune of [s] and its width in
    bytes; [(RuneError, 0)] on the empty string and [(RuneError, 1)] on an
    invalid encoding. *)
Definition DecodeRuneInString (s : string) : Z * nat :=
  match s with
  | EmptyString => (RuneError, 0%nat)
  | String c0 t0 =>
    let s0 := byte_val c0 in
    match first s0 with
    | AS => (s0, 1%nat)
    | XX => (RuneError, 1%nat)
    | Lead sz lo hi =>
      if (String.length s <? sz)%nat then (RuneError, 1%nat) else
      match t0 with
      | EmptyString => (RuneError, 1%nat)
      | String c1 t1 =>
        let s1 := byte_val c1 in
        if (s1 <? lo) || (hi <? s1) then (RuneError, 1%nat) else
        if (sz <=? 2)%nat then
          (Z.lor (Z.shiftl (Z.land s0 mask2) 6) (Z.land s1 maskx), 2%nat)
        else
        match t1 with
        | EmptyString => (RuneError, 1%nat)
        | String c2 t2 =>
          let s2 := byte_val c2 in
          if negb (is_cont s2) then (RuneError, 1%nat) else
          if (sz <=? 3)%nat then
            (Z.lor (Z.lor (Z.shiftl (Z.land s0 mask3) 12)
                          (Z.shiftl (Z.land s1 maskx) 6))
                   (Z.land s2 maskx), 3%nat)
          else
          match t2 with
          | EmptyString => (RuneError, 1%nat)
          | String c3 _ =>
            let s3 := byte_val c3 in
            if negb (is_cont s3) then (RuneError, 1%nat) else
            (Z.lor (Z.lor (Z.lor (Z.shiftl (Z.land s0 mask4) 18)
                                 (Z.shiftl (Z.land s1 maskx) 12))
                          (Z.shiftl (Z.land s2 maskx) 6))
                   (Z.land s3 maskx), 4%nat)
          end
        end
      end
    end
  end.

(** [utf8.RuneStart]: the byte is not a continuation byte. *)
Definition RuneStart (b : Z) : bool := negb (Z.land b 0xC0 =? 0x80).

(** The byte [s[i]], for [i] in range. *)
Definition at_ (s : string) (i : nat) : Z :=
  match String.get i s with
  | Some c => byte_val c
  | None => 0
  end.

(** The slice [s[i:j]]. *)
Definition slice (s : string) (i j : nat) : string := substring i (j - i) s.

(** The backwards scan of [DecodeLastRuneInString]:
    [for start--; start >= lim; start-- { if RuneStart(s[start]) { break } }]
    entered with [start] already decremented; the result is the final
    [start] as an integer ([lim - 1] when no rune start was found). *)
Fixpoint scan_back (s : string) (lim : Z) (start : Z) (fuel : nat) : Z :=
  match fuel with
  | O => start
  | S fuel' =>
    if start <? lim then start
    else if RuneStart (at_ s (Z.to_nat start)) then start
    else scan_back s lim (start - 1) fuel'
  end.

(** [utf8.DecodeLastRuneInString]. *)
Definition DecodeLastRuneInString (s : string) : Z * nat :=
  let end_ := String.length s in
  if (end_ =? 0)%nat then (RuneError, 0%nat) else
  let start := (end_ - 1)%nat in
  let r := at_ s start in
  if r <? RuneSelf then (r, 1%nat) else
  let lim := Z.max 0 (Z.of_nat end_ - Z.of_nat UTFMax) in
  let start := scan_back s lim (Z.of_nat start - 1) (S UTFMax) in
  let start := Z.to_nat (Z.max 0 start) in
  let '(r, size) := DecodeRuneInString (slice s start end_) in
  if negb (start + size =? end_)%nat then (RuneError, 1%nat) else (r, size).

(** [utf8.AppendRune] onto the empty buffer: the UTF-8 encoding of [r],
    with [RuneError] written for surrogates and out-of-range values.
    The comparisons of the source are on [uint32(r)]. *)
Definition EncodeRune (r : Z) : string :=
  let i := r mod 2 ^ 32 in
  let enc3 (r : Z) :=
    String (to_byte (Z.lor 0xE0 (Z.shiftr r 12)))
      (String (to_byte (Z.lor 0x80 (Z.land (Z.shiftr r 6) maskx)))
        (String (to_byte (Z.lor 0x80 (Z.land r maskx))) EmptyString)) in
  if i <=? rune1Max then String (to_byte r) EmptyString
  else if i <=? rune2Max then
    String (to_byte (Z.lor 0xC0 (Z.shiftr r 6)))
      (String (to_byte (Z.lor 0x80 (Z.land r maskx))) EmptyString)
  else if (MaxRune <? i) || ((surrogateMin <=? i) && (i <=? surrogateMax))
    then enc3 RuneError
  else if i <=? rune3Max then enc3 r
  else
    String (to_byte (Z.lor 0xF0 (Z.shiftr r 18)))
      (String (to_byte (Z.lor 0x80 (Z.land (Z.shiftr r 12) maskx)))
        (String (to_byte (Z.lor 0x80 (Z.land (Z.shiftr r 6) maskx)))
          (String (to_byte (Z.lor 0x80 (Z.land r maskx))) EmptyString))).

(** The runes a [for _, c := range s] loop sees: invalid bytes come out
    as [RuneError], one byte at a time. *)
Fixpoint runes_fuel (fuel : nat) (s : string) : list Z :=
  match fuel with
  | O => []
  | S fuel' =>
    match s with
    | EmptyString => []
    | _ =>
      let '(r, w) := DecodeRuneInString s in
      r :: runes_fuel fuel' (slice s w (String.length s))
    end
  end.

Definition runes (s : string) : list Z := runes_fuel (String.length s) s.

End utf8.

(** ** Helpers on byte strings *)

(** The line feed ["\n"]. *)
Definition LF : string := String "010"%char EmptyString.

Fixpoint string_forallb (p : ascii -> bool) (s : string) : bool :=
  match s with
  | EmptyString => true
  | String c t => p c && string_forallb p t
  end.

Fixpoint string_existsb (p : ascii -> bool) (s : string) : bool :=
  match s with
  | EmptyString => false
  | String c t => p c || string_existsb p t
  end.

Fixpoint string_map (f : ascii -> ascii) (s : string) : string :=
  match s with
  | EmptyString => EmptyString
  | String c t => String (f c) (string_map f t)
  end.

Fixpoint string_filter (p : ascii -> bool) (s : string) : string :=
  match s with
  | EmptyString => EmptyString
  | String c t => if p c then String c (string_filter p t) else string_filter p t
  end.

Fixpoint string_drop_while (p : ascii -> bool) (s : string) : string :=
  match s with
  | EmptyString => EmptyString
  | String c t => if p c then string_drop_while p t else s
  end.

Definition string_is_empty (s : string) : bool :=
  match s with
  | EmptyString => true
  | String _ _ => false
  end.

(** ** [unicode] *)

(** The Unicode case tables are data of Go's standard library
    ([unicode/tables.go]); the client reaches them only through
    [strings.ToLower] on a string that is not pure ASCII. *)
Class CaseTables := {
  (** [unicode.To(unicode.LowerCase, r)], used for [r > MaxASCII]. *)
  To_LowerCase : Z -> Z
}.

Module unicode.

Local Open Scope Z_scope.

Definition MaxASCII : Z := 0x7F.
Definition MaxLatin1 : Z := 0xFF.

(** A [Range16]/[Range32] entry of a [RangeTable]: [Lo], [Hi], [Stride]. *)
Record Range := { Lo : Z; Hi : Z; Stride : Z }.

Definition in_range (r : Z) (rg : Range) : bool :=
  (Lo rg <=? r) && (r <=? Hi rg) && ((r - Lo rg) mod Stride rg =? 0).

(** The table [White_Space], whose [LatinOffset] is 2. *)
Definition White_Space : list Range :=
  [ {| Lo := 0x0009; Hi := 0x000d; Stride := 1 |};
    {| Lo := 0x0020; Hi := 0x0085; Stride := 101 |};
    {| Lo := 0x00a0; Hi := 0x1680; Stride := 5600 |};
    {| Lo := 0x2000; Hi := 0x200a; Stride := 1 |};
    {| Lo := 0x2028; Hi := 0x2029; Stride := 1 |};
    {| Lo := 0x202f; Hi := 0x205f; Stride := 48 |};
    {| Lo := 0x3000; Hi := 0x3000; Stride := 1 |} ].

Definition White_Space_LatinOffset : nat := 2.

(** [isExcludingLatin(White_Space, r)]; the table has no 32-bit ranges. *)
Definition isExcludingLatin_White_Space (r : Z) : bool :=
  if (0 <=? r) && (r <=? 0x3000)
  then existsb (in_range r) (skipn White_Space_LatinOffset White_Space)
  else false.

(** [unicode.IsSpace]. *)
Definition IsSpace (r : Z) : bool :=
  if (0 <=? r) && (r <=? MaxLatin1) then
    (r =? 0x09) || (r =? 0x0A) || (r =? 0x0B) || (r =? 0x0C) || (r =? 0x0D)
    || (r =? 0x20) || (r =? 0x85) || (r =? 0xA0)
  else isExcludingLatin_White_Space r.

(** [unicode.ToLower]. *)
Definition ToLower `{CaseTables} (r : Z) : Z :=
  if r <=? MaxASCII then
    if (0x41 <=? r) && (r <=? 0x5A) then r + (0x61 - 0x41) else r
  else To_LowerCase r.

End unicode.

(** ** [strings] *)

Module strings.

Import utf8.

(** The loop of [lastIndexFunc], from index [i] downwards; [-1] when no
    rune satisfies [f(r) == truth].  Every iteration lowers [i] by at
    least one, so [i] iterations are enough. *)
Fixpoint lastIndexFunc_loop (fuel : nat) (s : string) (f : Z -> bool)
    (truth : bool) (i : nat) : Z :=
  match fuel with
  | O => (-1)%Z
  | S fuel' =>
    if (i =? 0)%nat then (-1)%Z else
    let '(r, size) := DecodeLastRuneInString (slice s 0 i) in
    let i := (i - size)%nat in
    if Bool.eqb (f r) truth then Z.of_nat i
    else lastIndexFunc_loop fuel' s f truth i
  end.

Definition lastIndexFunc (s : string) (f : Z -> bool) (truth : bool) : Z :=
  lastIndexFunc_loop (String.length s) s f truth (String.length s).

(** [strings.TrimRightFunc]. *)
Definition TrimRightFunc (s : string) (f : Z -> bool) : string :=
  let i := lastIndexFunc s f false in
  let i :=
    if (0 <=? i)%Z && (RuneSelf <=? at_ s (Z.to_nat i))%Z then
      let '(_, wid) := DecodeRuneInString (slice s (Z.to_nat i) (String.length s)) in
      (i + Z.of_nat wid)%Z
    else (i + 1)%Z in
  slice s 0 (Z.to_nat i).

(** [strings.Map]: every rune of [s] is replaced by its image; a negative
    image drops the rune; an invalid byte is seen as [RuneError]. *)
Definition Map (mapping : Z -> Z) (s : string) : string :=
  fold_right
    (fun c acc =>
       let r := mapping c in
       if (0 <=? r)%Z then EncodeRune r ++ acc else acc)
    EmptyString (runes s).

Definition is_ascii_byte (c : ascii) : bool := (byte_val c <? RuneSelf)%Z.
Definition is_upper_byte (c : ascii) : bool :=
  (0x41 <=? byte_val c)%Z && (byte_val c <=? 0x5A)%Z.
Definition lower_byte (c : ascii) : ascii :=
  if is_upper_byte c then to_byte (byte_val c + (0x61 - 0x41)) else c.

(** [strings.ToLower]: ASCII-only strings are folded byte by byte (and
    returned as they are when they hold no upper-case letter); any other
    string goes through [Map(unicode.ToLower, s)]. *)
Definition ToLower `{CaseTables} (s : string) : string :=
  let isASCII := string_forallb is_ascii_byte s in
  let hasUpper := string_existsb is_upper_byte s in
  if isASCII then
    if negb hasUpper then s else string_map lower_byte s
  else Map unicode.ToLower s.

(** [strings.Join]. *)
Fixpoint Join (elems : list string) (sep : string) : string :=
  match elems with
  | [] => ""
  | [e] => e
  | e :: rest => e ++ sep ++ Join rest sep
  end.

Definition contains_byte (set : string) (c : ascii) : bool :=
  string_existsb (Ascii.eqb c) set.

(** [trimLeftASCII]: drop the leading bytes that belong to the set. *)
Definition trimLeftASCII (s : string) (as_ : string) : string :=
  string_drop_while (contains_byte as_) s.

(** [strings.TrimLeft] for a cutset of ASCII characters (the client's
    cutset is ["_-"]); the [trimLeftByte] path taken for a one-byte
    cutset computes the same string. *)
Definition TrimLeft (s cutset : string) : string :=
  if string_is_empty s || string_is_empty cutset then s
  else trimLeftASCII s cutset.

End strings.

(** ** [path/filepath], with the Unix separator *)

Module filepath.

Definition Separator : ascii := "/"%char.
Definition IsPathSeparator (c : ascii) : bool := Ascii.eqb c Separator.

(** [for len(path) > 0 && os.IsPathSeparator(path[len(path)-1])
      { path = path[0 : len(path)-1] }] *)
Fixpoint strip_trailing_separators (path : string) : string :=
  match path with
  | EmptyString => EmptyString
  | String c t =>
    let t' := strip_trailing_separators t in
    if string_is_empty t' && IsPathSeparator c then EmptyString
    else String c t'
  end.

(** The part of [path] after its last separator ([path] itself when it
    has none). *)
Fixpoint last_element (path : string) : string :=
  match path with
  | EmptyString => EmptyString
  | String c t =>
    if string_existsb IsPathSeparator t then last_element t
    else if IsPathSeparator c then t
    else path
  end.

(** [filepath.Base]. *)
Definition Base (path : string) : string :=
  if string_is_empty path then "." else
  let path := strip_trailing_separators path in
  let path := last_element path in
  if string_is_empty path then String Separator EmptyString else path.

End filepath.

(** ** [regexp], for an expression that is one character class *)

Module regexp.

Import utf8.

(** A character class as its list of inclusive rune ranges. *)
Definition Regexp := list (Z * Z).

Definition matches (re : Regexp) (r : Z) : bool :=
  existsb (fun rg => (fst rg <=? r)%Z && (r <=? snd rg)%Z) re.

(** The rune at the head of the input and its width, as the matcher reads
    it ([inputString.step]). *)
Definition step (s : string) : Z * nat :=
  match s with
  | EmptyString => (RuneError, 0)
  | String c _ =>
    if (byte_val c <? RuneSelf)%Z then (byte_val c, 1)
    else DecodeRuneInString s
  end.

(** [re.FindAllString(s, -1)]: the successive leftmost matches.  For a
    single class these are the runes of [s] that belong to it, each as a
    string of its own; the scan advances rune by rune. *)
Fixpoint FindAllString_fuel (fuel : nat) (re : Regexp) (s : string)
    : list string :=
  match fuel with
  | O => []
  | S fuel' =>
    match s with
    | EmptyString => []
    | _ =>
      let '(r, w) := step s in
      let rest := FindAllString_fuel fuel' re (slice s w (String.length s)) in
      if matches re r then slice s 0 w :: rest else rest
    end
  end.

Definition FindAllString (re : Regexp) (s : string) : list string :=
  FindAllString_fuel (String.length s) re s.

End regexp.

(** ** Channels *)

(** A Go channel of capacity [cap]: the queued values, oldest first, and
    whether the channel has been closed. *)
Record chan (A : Type) := mkChan {
  buf : list A;
  cap : nat;
  closed : bool
}.
Arguments mkChan {A} _ _ _.
Arguments buf {A} _.
Arguments cap {A} _.
Arguments closed {A} _.

(** [make(chan A, n)] *)
Definition make_chan {A : Type} (n : nat) : chan A :=
  {| buf := []; cap := n; closed := false |}.

(** [ch <- v] when it can proceed at once; [None] when the sender would
    have to wait.  The client never closes a channel it sends on. *)
Definition send {A : Type} (ch : chan A) (v : A) : option (chan A) :=
  if (length (buf ch) <? cap ch)%nat
  then Some {| buf := buf ch ++ [v]; cap := cap ch; closed := closed ch |}
  else None.

Inductive RecvResult (A : Type) : Type :=
| RecvValue (v : A) (ch : chan A)   (* v, ok := <-ch with ok = true *)
| RecvClosed                        (* ok = false: closed and drained *)
| RecvWait.                         (* nothing to receive yet *)
Arguments RecvValue {A} _ _.
Arguments RecvClosed {A}.
Arguments RecvWait {A}.

(** [<-ch] *)
Definition recv {A : Type} (ch : chan A) : RecvResult A :=
  match buf ch with
  | v :: rest => RecvValue v {| buf := rest; cap := cap ch; closed := closed ch |}
  | [] => if closed ch then RecvClosed else RecvWait
  end.

(** ** Types of the [model] package and errors *)

(** Modelled from the spec: the declarations of [model.DockerComposeProject]
    and [model.DockerComposeUpSpec] are not part of the source at hand.  A
    project is a name, a working directory and its configuration files; a
    service spec names one service of a project. *)
Record DockerComposeProject := {
  Name : string;
  ProjectPath : string;
  ConfigPaths : list string
}.

Record DockerComposeUpSpec := {
  Service : string;
  Project : DockerComposeProject
}.

(** A non-nil value of Go's [error] interface; [nil] is [None] of
    [option error]. *)
Inductive error : Type :=
| errors_New (text : string).

(** ** The client *)

(** Represents a single call to Up *)
Record UpCall := {
  Spec : DockerComposeUpSpec;
  ShouldBuild : bool
}.

(** Represents a single call to Down *)
Record DownCall := {
  Proj : DockerComposeProject
}.

Record RmCall := {
  Specs : list DockerComposeUpSpec
}.

(** The struct [FakeDCClient], without its [testing.T] handle and its
    context.  A log channel of [RunLogOutput] is held as the values it
    yields over the life of a stream. *)
Record FakeDCClient := {
  RunLogOutput : gmap string (chan string);
  ContainerIdOutput : string;
  eventJson : chan string;
  ConfigOutput : string;
  VersionOutput : string;
  UpCalls : list UpCall;
  DownCalls : list DownCall;
  RmCalls : list RmCall;
  DownError : option error;
  RmError : option error;
  WorkDir : string
}.

(** Field assignments [c.F = v]. *)
Definition set_UpCalls (c : FakeDCClient) (v : list UpCall) : FakeDCClient :=
  {| RunLogOutput := RunLogOutput c; ContainerIdOutput := ContainerIdOutput c;
     eventJson := eventJson c; ConfigOutput := ConfigOutput c;
     VersionOutput := VersionOutput c; UpCalls := v; DownCalls := DownCalls c;
     RmCalls := RmCalls c; DownError := DownError c; RmError := RmError c;
     WorkDir := WorkDir c |}.

Definition set_DownCalls (c : FakeDCClient) (v : list DownCall) : FakeDCClient :=
  {| RunLogOutput := RunLogOutput c; ContainerIdOutput := ContainerIdOutput c;
     eventJson := eventJson c; ConfigOutput := ConfigOutput c;
     VersionOutput := VersionOutput c; UpCalls := UpCalls c; DownCalls := v;
     RmCalls := RmCalls c; DownError := DownError c; RmError := RmError c;
     WorkDir := WorkDir c |}.

Definition set_RmCalls (c : FakeDCClient) (v : list RmCall) : FakeDCClient :=
  {| RunLogOutput := RunLogOutput c; ContainerIdOutput := ContainerIdOutput c;
     eventJson := eventJson c; ConfigOutput := ConfigOutput c;
     VersionOutput := VersionOutput c; UpCalls := UpCalls c;
     DownCalls := DownCalls c; RmCalls := v; DownError := DownError c;
     RmError := RmError c; WorkDir := WorkDir c |}.

Definition set_DownError (c : FakeDCClient) (v : option error) : FakeDCClient :=
  {| RunLogOutput := RunLogOutput c; ContainerIdOutput := ContainerIdOutput c;
     eventJson := eventJson c; ConfigOutput := ConfigOutput c;
     VersionOutput := VersionOutput c; UpCalls := UpCalls c;
     DownCalls := DownCalls c; RmCalls := RmCalls c; DownError := v;
     RmError := RmError c; WorkDir := WorkDir c |}.

Definition set_RmError (c : FakeDCClient) (v : option error) : FakeDCClient :=
  {| RunLogOutput := RunLogOutput c; ContainerIdOutput := ContainerIdOutput c;
     eventJson := eventJson c; ConfigOutput := ConfigOutput c;
     VersionOutput := VersionOutput c; UpCalls := UpCalls c;
     DownCalls := DownCalls c; RmCalls := RmCalls c; DownError := DownError c;
     RmError := v; WorkDir := WorkDir c |}.

Definition set_eventJson (c : FakeDCClient) (v : chan string) : FakeDCClient :=
  {| RunLogOutput := RunLogOutput c; ContainerIdOutput := ContainerIdOutput c;
     eventJson := v; ConfigOutput := ConfigOutput c;
     VersionOutput := VersionOutput c; UpCalls := UpCalls c;
     DownCalls := DownCalls c; RmCalls := RmCalls c; DownError := DownError c;
     RmError := RmError c; WorkDir := WorkDir c |}.

(** [NewFakeDockerComposeClient]: every field not listed in the composite
    literal has its zero value. *)
Definition NewFakeDockerComposeClient : FakeDCClient :=
  {| RunLogOutput := ∅; ContainerIdOutput := "";
     eventJson := make_chan 100; ConfigOutput := ""; VersionOutput := "";
     UpCalls := []; DownCalls := []; RmCalls := [];
     DownError := None; RmError := None; WorkDir := "" |}.

(** *** Lifecycle calls

    Each call returns the client after the call and the returned [error]. *)

Definition Up (c : FakeDCClient) (spec : DockerComposeUpSpec)
    (shouldBuild : bool) : FakeDCClient * option error :=
  let c := set_UpCalls c (UpCalls c ++ [ {| Spec := spec; ShouldBuild := shouldBuild |} ]) in
  (c, None).

Definition Down (c : FakeDCClient) (proj : DockerComposeProject)
    : FakeDCClient * option error :=
  let c := set_DownCalls c (DownCalls c ++ [ {| Proj := proj |} ]) in
  match DownError c with
  | Some err =>
    let c := set_DownError c (Some err) in
    (c, Some err)
  | None => (c, None)
  end.

Definition Rm (c : FakeDCClient) (specs : list DockerComposeUpSpec)
    : FakeDCClient * option error :=
  let c := set_RmCalls c (RmCalls c ++ [ {| Specs := specs |} ]) in
  match RmError c with
  | Some err =>
    let c := set_RmError c (Some err) in
    (c, Some err)
  | None => (c, None)
  end.

(** A lifecycle call with its arguments, and the execution of a sequence
    of calls on one client, collecting what each call returned. *)
Inductive Call : Type :=
| CallUp (spec : DockerComposeUpSpec) (shouldBuild : bool)
| CallDown (proj : DockerComposeProject)
| CallRm (specs : list DockerComposeUpSpec).

Definition exec (c : FakeDCClient) (k : Call) : FakeDCClient * option error :=
  match k with
  | CallUp spec shouldBuild => Up c spec shouldBuild
  | CallDown proj => Down c proj
  | CallRm specs => Rm c specs
  end.

Fixpoint run (c : FakeDCClient) (calls : list Call)
    : FakeDCClient * list (option error) :=
  match calls with
  | [] => (c, [])
  | k :: rest =>
    let '(c1, r) := exec c k in
    let '(c2, rs) := run c1 rest in
    (c2, r :: rs)
  end.

(** The records a sequence of calls is expected to leave in each history. *)
Definition up_records (calls : list Call) : list UpCall :=
  omap (fun k => match k with
                 | CallUp spec b => Some {| Spec := spec; ShouldBuild := b |}
                 | _ => None
                 end) calls.

Definition down_records (calls : list Call) : list DownCall :=
  omap (fun k => match k with
                 | CallDown proj => Some {| Proj := proj |}
                 | _ => None
                 end) calls.

Definition rm_records (calls : list Call) : list RmCall :=
  omap (fun k => match k with
                 | CallRm specs => Some {| Specs := specs |}
                 | _ => None
                 end) calls.

(** *** Diagnostics *)

Definition ContainerID (c : FakeDCClient) (spec : DockerComposeUpSpec)
    : string * option error :=
  (ContainerIdOutput c, None).

Definition Config (c : FakeDCClient) : string * option error :=
  (ConfigOutput c, None).

Definition Version (c : FakeDCClient) : string * string * option error :=
  if negb (string_is_empty (VersionOutput c)) then
    (VersionOutput c, "tilt-fake", None)
  else
    (* default to a "known good" version that won't produce warnings *)
    ("v1.29.2", "tilt-fake", None).

(** *** Project name *)

(** The regular expression ["[a-z0-9_-]"]. *)
Definition name_chars : regexp.Regexp :=
  [ (0x61, 0x7A); (0x30, 0x39); (0x5F, 0x5F); (0x2D, 0x2D) ]%Z.

(** The normalization applied to the base name (the three assignments to
    [name] after [filepath.Base]). *)
Definition normalize `{CaseTables} (name : string) : string :=
  let name := strings.ToLower name in
  let name := strings.Join (regexp.FindAllString name_chars name) "" in
  let name := strings.TrimLeft name "_-" in
  name.

(** The closure [projectNameOpt] of [Project]: the value it stores in
    [opt.Name] for the client's working directory. *)
Definition projectNameOpt `{CaseTables} (workDir : string) : string :=
  if negb (string_is_empty workDir) then
    let name := filepath.Base workDir in
    normalize name
  else "fakedc".

(** *** Log streams *)

(** The wall clock and the layout [time.RFC3339Nano] of Go's [time]
    package: [time_Now n] is the reading of the [n]-th call of [time.Now]
    made by a stream. *)
Class Clock := {
  Time : Type;
  time_Now : nat -> Time;
  Format_RFC3339Nano : Time -> string
}.

(** The pipe of [io.Pipe], as its writer sees it.  [written] holds the
    chunks that reached the reader.  [reads_left] is the number of bytes the
    reader still takes before it closes its end; [None] is a reader that
    reads until the end of the stream. *)
Record Pipe := {
  written : list string;
  wclosed : bool;
  reads_left : option nat
}.

Definition io_Pipe (reads : option nat) : Pipe :=
  {| written := []; wclosed := false; reads_left := reads |}.

Definition ErrClosedPipe : error := errors_New "io: read/write on closed pipe".

Definition string_take (n : nat) (s : string) : string := substring 0 n s.

(** [writer.Write(data)]: blocks until the reader has taken all of [data],
    or fails with [ErrClosedPipe] once the reader has closed its end. *)
Definition Write (p : Pipe) (data : string) : Pipe * option error :=
  match reads_left p with
  | None =>
    ({| written := written p ++ [data]; wclosed := wclosed p;
        reads_left := None |}, None)
  | Some n =>
    if (String.length data <=? n)%nat then
      ({| written := written p ++ [data]; wclosed := wclosed p;
          reads_left := Some (n - String.length data) |}, None)
    else
      ({| written := written p ++
                     (if (n =? 0)%nat then [] else [string_take n data]);
          wclosed := wclosed p; reads_left := Some 0 |}, Some ErrClosedPipe)
  end.

(** [writer.Close()] never fails. *)
Definition Close (p : Pipe) : Pipe * option error :=
  ({| written := written p; wclosed := true; reads_left := reads_left p |},
   None).

(** How the goroutine of a stream ends. *)
Inductive Outcome : Type :=
| Closed                   (* the writer was closed: the reader sees EOF *)
| Waiting                  (* parked in [select]; nothing more arrives *)
| Failed (msg : string).   (* [require.NoError] stopped the goroutine *)

(** The goroutine as a computation over the pipe that either goes on with
    a value or stops. *)
Definition Routine (A : Type) : Type := Pipe -> Pipe * (Outcome + A).

Definition ret {A : Type} (a : A) : Routine A := fun p => (p, inr a).

Definition bind {A B : Type} (m : Routine A) (k : A -> Routine B) : Routine B :=
  fun p =>
    match m p with
    | (p', inr a) => k a p'
    | (p', inl stop) => (p', inl stop)
    end.

Notation "'do' x <- m ; k" := (bind m (fun x => k))
  (at level 10, x name, m at level 100, k at level 200).

Definition wait {A : Type} : Routine A := fun p => (p, inl Waiting).

Definition write (data : string) : Routine (option error) :=
  fun p => let '(p', err) := Write p data in (p', inr err).

Definition close : Routine (option error) :=
  fun p => let '(p', err) := Close p in (p', inr err).

(** [require.NoError(c.t, err, msg)]: a non-nil error ends the goroutine
    through [t.FailNow]. *)
Definition require_NoError (err : option error) (msg : string) : Routine unit :=
  fun p =>
    match err with
    | None => (p, inr tt)
    | Some _ => (p, inl (Failed msg))
    end.

(** The case a [select] of the stream's loop proceeds with. *)
Inductive SelectCase : Type :=
| CaseCtxDone     (* case <-ctx.Done() *)
| CaseOutput.     (* case s, ok := <-output *)

(** The loop [for !done { select { ... } }], driven by the cases the
    runtime picks, iteration after iteration.  When no further case fires
    (the schedule is used up, or the picked receive has nothing to deliver,
    as on the nil channel of a service without log output) the goroutine
    stays parked.  [tick] counts the calls of [time.Now]. *)
Fixpoint logs_loop `{Clock} (sched : list SelectCase)
    (output : option (chan string)) (tick : nat) : Routine unit :=
  match sched with
  | [] => wait
  | CaseCtxDone :: _ => ret tt
  | CaseOutput :: sched' =>
    match output with
    | None => wait
    | Some ch =>
      match recv ch with
      | RecvWait => wait
      | RecvClosed => ret tt
      | RecvValue s ch' =>
        let logLine :=
          Format_RFC3339Nano (time_Now tick) ++ " " ++
          strings.TrimRightFunc s unicode.IsSpace ++ LF in
        do err <- write logLine;
        do _u <- require_NoError err "Failed to write to fake Docker Compose logs";
        logs_loop sched' (Some ch') (S tick)
      end
    end
  end.

(** The body of the goroutine started by [StreamLogs]. *)
Definition logs_goroutine `{Clock} (output : option (chan string))
    (service : string) (sched : list SelectCase) : Routine unit :=
  (* docker-compose always logs an "Attaching to foo, bar" at the start of
     a log session *)
  do err <- write ("Attaching to " ++ service ++ LF);
  do _u <- require_NoError err "Failed to write to fake Docker Compose logs";
  do _u <- logs_loop sched output 0;
  (* it writes a message with the container exit code *)
  do err <- write (service ++ " exited with code 0" ++ LF);
  do _u <- require_NoError err "Failed to write to fake Docker Compose logs";
  do err <- close;
  require_NoError err "Failed to close fake Docker Compose logs writer".

(** A stream once its goroutine has come to rest. *)
Record LogStream := {
  pipe : Pipe;
  outcome : Outcome
}.

(** [StreamLogs]: the stream produced for [spec] under a schedule of
    [select] cases and a reader that takes [reads] bytes. *)
Definition StreamLogs `{Clock} (c : FakeDCClient) (spec : DockerComposeUpSpec)
    (sched : list SelectCase) (reads : option nat) : LogStream :=
  let output := RunLogOutput c !! Service spec in
  match logs_goroutine output (Service spec) sched (io_Pipe reads) with
  | (p, inl stop) => {| pipe := p; outcome := stop |}
  | (p, inr _) => {| pipe := p; outcome := Closed |}
  end.

(** The lines a reader gets from the stream, and the bytes they make up. *)
Definition stream_lines (s : LogStream) : list string := written (pipe s).

Definition stream_bytes (s : LogStream) : string :=
  fold_right String.append "" (written (pipe s)).

(** *** Events *)

(** The type [Event] of the package and its JSON encoding by
    [json.Marshal], which yields the encoded text or an error. *)
Class Json := {
  Event : Type;
  json_Marshal : Event -> string + error
}.

(** What a call of [SendEvent] comes to: it returns, or it is parked on the
    send of [j] to a full ingestion queue. *)
Inductive SendResult : Type :=
| SendReturned (c : FakeDCClient) (err : option error)
| SendParked (j : string).

Definition SendEvent `{Json} (c : FakeDCClient) (evt : Event) : SendResult :=
  match json_Marshal evt with
  | inr err => SendReturned c (Some err)
  | inl j =>
    match send (eventJson c) j with
    | Some q => SendReturned (set_eventJson c q) None
    | None => SendParked j
    end
  end.

(** [StreamEvents]: the channel handed to the subscriber. *)
Definition StreamEvents (c : FakeDCClient) (p : DockerComposeProject)
    : chan string * option error :=
  (make_chan 10, None).

Inductive LoopStatus : Type :=
| Running
| Returned                 (* left through [case <-ctx.Done()] *)
| Panicked (msg : string).

Definition no_room_message (event : string) : string :=
  "no room on events channel to send event: '" ++ event ++
  "'. Something is wrong (or you need to increase the buffer).".

(** One subscription: the client (with its ingestion queue), the
    subscriber's channel and the state of the distribution goroutine.
    [taken] lists the events the goroutine has received from the ingestion
    queue and [received] the events the subscriber has read; both are
    bookkeeping for the statements below. *)
Record EventBus := {
  client : FakeDCClient;
  events : chan string;
  loop : LoopStatus;
  taken : list string;
  received : list string
}.

Definition subscribe (c : FakeDCClient) (p : DockerComposeProject) : EventBus :=
  {| client := c; events := fst (StreamEvents c p); loop := Running;
     taken := []; received := [] |}.

(** An iteration of the distribution loop that proceeds with
    [case event := <-c.eventJson]: the event goes to [events] when there is
    room and the goroutine panics otherwise. *)
Definition forward (b : EventBus) : EventBus :=
  match recv (eventJson (client b)) with
  | RecvValue event q =>
    let c := set_eventJson (client b) q in
    match send (events b) event with
    | Some ev =>
      {| client := c; events := ev; loop := Running;
         taken := taken b ++ [event]; received := received b |}
    | None =>
      {| client := c; events := events b;
         loop := Panicked (no_room_message event);
         taken := taken b ++ [event]; received := received b |}
    end
  | _ => b
  end.

(** What can happen next to a subscription. *)
Inductive BusAction `{Json} : Type :=
| Produce (evt : Event)   (* a call of [SendEvent] *)
| Forward                 (* the loop receives from the ingestion queue *)
| Cancel                  (* the loop sees [ctx.Done()] *)
| Consume.                (* the subscriber receives from its channel *)

(** A panic ends the process, and a returned loop forwards nothing more. *)
Definition bus_step `{Json} (b : EventBus) (a : BusAction) : EventBus :=
  match loop b with
  | Panicked _ => b
  | st =>
    match a with
    | Produce evt =>
      match SendEvent (client b) evt with
      | SendReturned c _ =>
        {| client := c; events := events b; loop := loop b;
           taken := taken b; received := received b |}
      | SendParked _ => b
      end
    | Forward =>
      match st with
      | Running => forward b
      | _ => b
      end
    | Cancel =>
      match st with
      | Running =>
        {| client := client b; events := events b; loop := Returned;
           taken := taken b; received := received b |}
      | _ => b
      end
    | Consume =>
      match recv (events b) with
      | RecvValue v ev =>
        {| client := client b; events := ev; loop := loop b;
           taken := taken b; received := received b ++ [v] |}
      | _ => b
      end
    end
  end.

Definition bus_run `{Json} (b : EventBus) (sched : list BusAction) : EventBus :=
  fold_left bus_step sched b.

(** The subscriber's channel is full at the moment the loop is about to
    forward an event to it. *)
Definition forward_finds_full `{Json} (b : EventBus) (a : BusAction) : bool :=
  match a, loop b, buf (eventJson (client b)) with
  | Forward, Running, _ :: _ => (cap (events b) <=? length (buf (events b)))%nat
  | _, _, _ => false
  end.

(** No forwarding step of the schedule finds the subscriber's channel full. *)
Fixpoint always_room `{Json} (b : EventBus) (sched : list BusAction) : bool :=
  match sched with
  | [] => true
  | a :: rest => negb (forward_finds_full b a) && always_room (bus_step b a) rest
  end.

(** ** Notions used in the statements *)

(** The number of records over the three histories. *)
Definition records (c : FakeDCClient) : nat :=
  length (UpCalls c) + length (DownCalls c) + length (RmCalls c).

(** The line written for the message [s] at the [tick]-th clock reading. *)
Definition log_line `{Clock} (tick : nat) (s : string) : string :=
  Format_RFC3339Nano (time_Now tick) ++ " " ++
  strings.TrimRightFunc s unicode.IsSpace ++ LF.

Definition attach_line (service : string) : string :=
  "Attaching to " ++ service ++ LF.

Definition exit_line (service : string) : string :=
  service ++ " exited with code 0" ++ LF.

(** The lines of the messages [msgs], timestamped from [tick] onwards. *)
Fixpoint log_lines `{Clock} (tick : nat) (msgs : list string) : list string :=
  match msgs with
  | [] => []
  | s :: rest => log_line tick s :: log_lines (S tick) rest
  end.

(** The channel [ch] with [v] added at the end of its queue. *)
Definition enqueue {A : Type} (ch : chan A) (v : A) : chan A :=
  {| buf := buf ch ++ [v]; cap := cap ch; closed := closed ch |}.

Definition panicked (b : EventBus) : Prop := exists msg, loop b = Panicked msg.

(** The events taken from the ingestion queue are the ones the subscriber
    has read followed by the ones waiting in its channel: nothing is lost,
    doubled or reordered. *)
Definition all_delivered (b : EventBus) : Prop :=
  taken b = (received b ++ buf (events b))%list.

(** A byte that is not an ASCII character. *)
Definition high_byte (c : ascii) : bool := (0x80 <=? utf8.byte_val c)%Z.

(** A class of ASCII characters only. *)
Definition ascii_class (re : regexp.Regexp) : Prop :=
  forall r, regexp.matches re r = true -> (r < utf8.RuneSelf)%Z.

(** The naming rule in the words of the specification: lowercase the final
    path component, keep the characters in [[a-z0-9_-]] and drop all others,
    then strip the leading run of ["_"] and ["-"]; the fallback name stands
    in for an empty working directory. *)
Definition is_name_char (c : ascii) : bool :=
  (("a" <=? c) && (c <=? "z") || ("0" <=? c) && (c <=? "9")
   || (c =? "_") || (c =? "-"))%char.

Definition is_leading_separator (c : ascii) : bool :=
  ((c =? "_") || (c =? "-"))%char.

Definition keep_name_chars (s : string) : string :=
  string_filter is_name_char s.

Definition strip_leading_separators (s : string) : string :=
  string_drop_while is_leading_separator s.

Definition spec_normalize `{CaseTables} (name : string) : string :=
  strip_leading_separators (keep_name_chars (strings.ToLower name)).

Definition spec_project_name `{CaseTables} (workDir : string) : string :=
  match workDir with
  | EmptyString => "fakedc"
  | _ => spec_normalize (filepath.Base workDir)
  end.

(** ** Data for the worked instances *)

(** A clock whose [n]-th reading is [n + 1] nanoseconds past
    2006-01-02T15:04:05Z, printed for the first nine readings. *)
Definition example_clock : Clock :=
  {| Time := nat;
     time_Now := fun n => S n;
     Format_RFC3339Nano := fun t =>
       ("2006-01-02T15:04:05.00000000" ++
        String (ascii_of_nat (48 + t)) "Z")%string |}.

(** Case tables that leave every non-ASCII rune alone. *)
Definition example_tables : CaseTables := {| To_LowerCase := fun r => r |}.

(** Events that are either an encodable text or a value [json.Marshal]
    rejects. *)
Definition example_json : Json :=
  {| Event := option string;
     json_Marshal := fun evt =>
       match evt with
       | Some j => inl j
       | None => inr (errors_New "json: unsupported value")
       end |}.

Definition demo : DockerComposeProject :=
  {| Name := "demo"; ProjectPath := "/home/dev/demo"; ConfigPaths := [] |}.

Definition web : DockerComposeUpSpec := {| Service := "web"; Project := demo |}.

(** A client whose service ["web"] logs ["a"] and ["b "] and then exits. *)
Definition web_client : FakeDCClient :=
  {| RunLogOutput := {[ "web" := {| buf := ["a"; "b "]; cap := 2; closed := true |} ]};
     ContainerIdOutput := ""; eventJson := make_chan 100; ConfigOutput := "";
     VersionOutput := ""; UpCalls := []; DownCalls := []; RmCalls := [];
     DownError := None; RmError := None; WorkDir := "/home/dev/My-App_2" |}.

(** A client whose service ["web"] has not logged anything yet. *)
Definition quiet_client : FakeDCClient :=
  {| RunLogOutput := {[ "web" := make_chan 0 ]};
     ContainerIdOutput := ""; eventJson := make_chan 100; ConfigOutput := "";
     VersionOutput := ""; UpCalls := []; DownCalls := []; RmCalls := [];
     DownError := None; RmError := None; WorkDir := "" |}.

Definition down_fault : error := errors_New "down failed".
Definition rm_fault : error := errors_New "rm failed".

Definition faulty_client : FakeDCClient :=
  set_RmError (set_DownError NewFakeDockerComposeClient (Some down_fault))
              (Some rm_fault).

Definition versioned_client : FakeDCClient :=
  {| RunLogOutput := ∅; ContainerIdOutput := ""; eventJson := make_chan 100;
     ConfigOutput := ""; VersionOutput := "v2.17.3"; UpCalls := [];
     DownCalls := []; RmCalls := []; DownError := None; RmError := None;
     WorkDir := "" |}.

(** A client whose ingestion queue is full. *)
Definition congested_client : FakeDCClient :=
  set_eventJson NewFakeDockerComposeClient
    {| buf := repeat "{}" 100; cap := 100; closed := false |}.

(** A subscription whose channel holds ten events while an eleventh waits
    in the ingestion queue. *)
Definition full_bus : EventBus :=
  {| client := set_eventJson NewFakeDockerComposeClient
                 {| buf := ["k"]; cap := 100; closed := false |};
     events := {| buf := ["a"; "b"; "c"; "d"; "e"; "f"; "g"; "h"; "i"; "j"];
                  cap := 10; closed := false |};
     loop := Running;
     taken := ["a"; "b"; "c"; "d"; "e"; "f"; "g"; "h"; "i"; "j"];
     received := [] |}.

(** Eleven events sent and then forwarded with no subscriber reading: the
    first ten fill the channel and the eleventh forward panics.  With the
    subscriber reading one event first, all eleven are delivered. *)
Definition eleven : list (@BusAction example_json) :=
  map (fun n => @Produce example_json
                  (Some (String (ascii_of_nat (97 + n)) ""))) (seq 0 11).

Definition overflowing : list (@BusAction example_json) :=
  eleven ++ repeat (@Forward example_json) 11.

Definition keeping_up : list (@BusAction example_json) :=
  eleven ++ repeat (@Forward example_json) 10 ++
  [@Consume example_json; @Forward example_json].

(** ** Further notions used in the statements *)

(** A name a compose project can carry: characters of [[a-z0-9_-]], the
    first of which is a letter or a digit. *)
Definition valid_project_name (s : string) : bool :=
  match s with
  | EmptyString => false
  | String c t =>
    is_name_char c && negb (is_leading_separator c) &&
    string_forallb is_name_char t
  end.

(** A path element: no separator in it. *)
Definition no_separator (s : string) : Prop :=
  string_existsb filepath.IsPathSeparator s = false.

(** The messages the channel configured for a service holds; none when
    the service has no channel. *)
Definition configured_messages (c : FakeDCClient) (spec : DockerComposeUpSpec)
    : list string :=
  match RunLogOutput c !! Service spec with
  | Some ch => buf ch
  | None => []
  end.

(** The white space of ASCII: tab, line feed, vertical tab, form feed,
    carriage return and space. *)
Definition is_ascii_space (c : ascii) : bool :=
  ((c =? "009") || (c =? "010") || (c =? "011") || (c =? "012")
   || (c =? "013") || (c =? " "))%char.

(** A string without the run of bytes satisfying [p] at its end. *)
Fixpoint string_drop_while_end (p : ascii -> bool) (s : string) : string :=
  match s with
  | EmptyString => EmptyString
  | String c t =>
    let t' := string_drop_while_end p t in
    if string_is_empty t' && p c then EmptyString else String c t'
  end.

(** The encoded texts of the events [json.Marshal] accepts. *)
Definition encodings `{Json} (evts : list Event) : list string :=
  omap (fun evt => match json_Marshal evt with
                   | inl j => Some j
                   | inr _ => None
                   end) evts.

(** One producer calling [SendEvent] for one event after the other; it
    gets no further than a call that is parked. *)
Fixpoint send_events `{Json} (c : FakeDCClient) (evts : list Event)
    : FakeDCClient * list SendResult :=
  match evts with
  | [] => (c, [])
  | evt :: rest =>
    match SendEvent c evt with
    | SendReturned c' err =>
      let '(c'', rs) := send_events c' rest in
      (c'', SendReturned c' err :: rs)
    | SendParked j => (c, [SendParked j])
    end
  end.

(** What [SendEvent] returns for an event when it is not parked. *)
Definition send_error `{Json} (evt : Event) : option error :=
  match json_Marshal evt with
  | inl _ => None
  | inr err => Some err
  end.

(** The events a schedule sends. *)
Definition sent `{Json} (sched : list BusAction) : list Event :=
  omap (fun a => match a with Produce evt => Some evt | _ => None end) sched.

(** *** Two subscriptions on one client

    Every call of [StreamEvents] starts a goroutine of its own, and all of
    them receive from the one channel [c.eventJson]. *)

(** What a subscription does by itself. *)
Inductive SubAction : Type :=
| SubForward    (* its loop receives from the ingestion queue *)
| SubCancel     (* its loop sees [ctx.Done()] *)
| SubConsume.   (* its subscriber receives from its channel *)

Definition sub_action `{Json} (a : SubAction) : BusAction :=
  match a with
  | SubForward => Forward
  | SubCancel => Cancel
  | SubConsume => Consume
  end.

(** The subscription [b] looking at the client [c]. *)
Definition with_client (b : EventBus) (c : FakeDCClient) : EventBus :=
  {| client := c; events := events b; loop := loop b; taken := taken b;
     received := received b |}.

(** The client shared by two subscriptions, and each of them. *)
Record TwoSubscribers := {
  shared : FakeDCClient;
  first_sub : EventBus;
  second_sub : EventBus
}.

Definition subscribe_twice (c : FakeDCClient) (p1 p2 : DockerComposeProject)
    : TwoSubscribers :=
  {| shared := c; first_sub := subscribe c p1; second_sub := subscribe c p2 |}.

(** A step of the first ([true]) or the second ([false]) subscription; a
    panic in either goroutine has ended the process. *)
Definition two_step `{Json} (s : TwoSubscribers) (a : bool * SubAction)
    : TwoSubscribers :=
  match loop (first_sub s), loop (second_sub s) with
  | Panicked _, _ => s
  | _, Panicked _ => s
  | _, _ =>
    if a.1 then
      let b := bus_step (with_client (first_sub s) (shared s)) (sub_action a.2) in
      {| shared := client b; first_sub := b; second_sub := second_sub s |}
    else
      let b := bus_step (with_client (second_sub s) (shared s)) (sub_action a.2) in
      {| shared := client b; first_sub := first_sub s; second_sub := b |}
  end.

Definition two_run `{Json} (s : TwoSubscribers) (sched : list (bool * SubAction))
    : TwoSubscribers :=
  fold_left two_step sched s.

(** What has reached the subscriber of a subscription. *)
Definition delivered (b : EventBus) : list string :=
  received b ++ buf (events b).

(** A subscription in good order: its channel is within its capacity, and
    the events its loop has taken are the ones delivered, followed, after a
    panic, by the one event that found no room. *)
Definition sound (b : EventBus) : Prop :=
  length (buf (events b)) <= cap (events b) /\
  ((~ panicked b /\ taken b = delivered b) \/
   (panicked b /\ exists event, taken b = (delivered b ++ [event])%list)).

(** The two subscriptions have split the events [q0] between them and are
    both in good order. *)
Definition shares (s : TwoSubscribers) (q0 : list string) : Prop :=
  (taken (first_sub s) ++ taken (second_sub s) ++
   buf (eventJson (shared s)))%list ≡ₚ q0 /\
  sound (first_sub s) /\ sound (second_sub s).

(** ** The status cell of the overview table

    The component [OverviewTableStatus] that follows the client in the
    source.  It is a function of its props; what it imports from other
    files is taken as given. *)

(** The enum [ResourceStatus] is declared in [./types]; its members are the
    ones the [switch] of the component names, and [Other] stands for any
    value that ends in its [default]. *)
Module ResourceStatus.
Inductive t : Type :=
| Building | None | Pending | Warning | Healthy | Unhealthy | Disabled | Other.
End ResourceStatus.

(** What the component takes from other files: durations and holds, the
    texts [formatBuildDuration] and [PendingBuildDescription] make of them,
    and the path built by [usePathBuilder().encpath] for
    [/r/${resourceName}/overview]. *)
Class Ui := {
  Duration : Type;
  Hold : Type;
  formatBuildDuration : Duration -> string;
  PendingBuildDescription : option Hold -> string;
  encpath_overview : string -> string
}.

(** The SVG components the cell can show. *)
Inductive Icon : Type :=
| PendingSvg | WarningSvg | CheckmarkSmallSvg | CloseSvg | NotAllowedSvg.

(** [OverviewTableStatusProps]; a missing [isBuild] counts as [false], a
    missing or null [lastBuildDur] or [hold] is [None]. *)
Record OverviewTableStatusProps `{Ui} := {
  status : ResourceStatus.t;
  resourceName : string;
  lastBuildDur : option Duration;
  isBuild : bool;
  hold : option Hold
}.

(** The link [StyledOverviewTableStatus] with its icon and message, and
    the element the component returns: the link, or the link inside a
    [Tooltip]. *)
Record StatusLink := {
  to : string;
  className : string;
  icon : option Icon;
  msg : string
}.

Inductive StatusElement : Type :=
| Link (content : StatusLink)
| Tooltip (title : string) (content : StatusLink).

Definition link_of (e : StatusElement) : StatusLink :=
  match e with
  | Link content => content
  | Tooltip _ content => content
  end.

(** [OverviewTableStatus]; [None] is the [null] it returns when there is no
    message. *)
Definition OverviewTableStatus `{Ui} (props : OverviewTableStatusProps)
    : option StatusElement :=
  let '(icon, msg, tooltip, classes) :=
    match status props with
    | ResourceStatus.Building =>
      (Some PendingSvg,
       if isBuild props then "Updating…" else "Runtime Deploying",
       "", "is-building")
    | ResourceStatus.None => (Datatypes.None, "", "", "")
    | ResourceStatus.Pending =>
      if isBuild props then
        (Some PendingSvg, "Update Pending",
         PendingBuildDescription (hold props), "is-pending")
      else
        (Some PendingSvg, "Runtime Pending", "", "is-pending")
    | ResourceStatus.Warning =>
      let buildDurText :=
        match lastBuildDur props with
        | Some d => " in " ++ formatBuildDuration d
        | Datatypes.None => ""
        end in
      (Some WarningSvg,
       if isBuild props then "Updated" ++ buildDurText else "Runtime Ready",
       "", "is-warning")
    | ResourceStatus.Healthy =>
      let buildDurText :=
        match lastBuildDur props with
        | Some d => " in " ++ formatBuildDuration d
        | Datatypes.None => ""
        end in
      (Some CheckmarkSmallSvg,
       if isBuild props then "Updated" ++ buildDurText else "Runtime Ready",
       "", "is-healthy")
    | ResourceStatus.Unhealthy =>
      (Some CloseSvg,
       if isBuild props then "Update error" else "Runtime error",
       "", "is-error")
    | ResourceStatus.Disabled =>
      (Some NotAllowedSvg, "Disabled", "", "is-disabled")
    | ResourceStatus.Other => (Datatypes.None, "", "", "")
    end in
  let url := encpath_overview (resourceName props) in
  if string_is_empty msg then Datatypes.None else
  let content := {| to := url; className := classes; icon := icon; msg := msg |} in
  if negb (string_is_empty tooltip) then Some (Tooltip tooltip content)
  else Some (Link content).

(** *** A reader that leaves *)

(** The bytes that went through a pipe. *)
Definition pipe_bytes (p : Pipe) : string :=
  fold_right String.append "" (written p).

(** The pipe [p], whose reader takes [n] more bytes, has so far carried
    what the pipe [q], whose reader stays, has carried. *)
Definition behind (n : nat) (p q : Pipe) : Prop :=
  reads_left p = Some n /\ reads_left q = None /\
  pipe_bytes p = pipe_bytes q /\ wclosed p = wclosed q.

(** A routine treats the two readers alike: run on [q] it appends some
    bytes [ext]; run on [p] it either does the same and ends the same way,
    when the reader takes all of [ext], or it is stopped by a failed write
    after the part of [ext] the reader takes. *)
Definition follows {A : Type} (m : Routine A) : Prop :=
  forall n p q, behind n p q ->
  exists ext,
    pipe_bytes (m q).1 = (pipe_bytes q ++ ext)%string /\
    reads_left (m q).1 = None /\
    (((m p).2 = (m q).2 /\ String.length ext <= n /\
      behind (n - String.length ext) (m p).1 (m q).1) \/
     ((exists msg, (m p).2 = inl (Failed msg)) /\
      n < String.length ext /\
      pipe_bytes (m p).1 = (pipe_bytes p ++ string_take n ext)%string)).

(** ** More data for the worked instances *)

(** Durations in seconds and holds given by their reason. *)
Definition example_ui : Ui :=
  {| Duration := nat;
     Hold := string;
     formatBuildDuration := fun d =>
       (String (ascii_of_nat (48 + d)) "s")%string;
     PendingBuildDescription := fun h =>
       match h with
       | Some reason => ("Update: " ++ reason)%string
       | None => "Update: pending"
       end;
     encpath_overview := fun name => ("/r/" ++ name ++ "/overview")%string |}.

Definition pending_build : @OverviewTableStatusProps example_ui :=
  @Build_OverviewTableStatusProps example_ui
    ResourceStatus.Pending "web" None true (Some "waiting on a dependency").

Definition healthy_build : @OverviewTableStatusProps example_ui :=
  @Build_OverviewTableStatusProps example_ui
    ResourceStatus.Healthy "web" (Some 3) true None.

Definition no_status : @OverviewTableStatusProps example_ui :=
  @Build_OverviewTableStatusProps example_ui
    ResourceStatus.None "web" None false None.

(** Eleven events that can be encoded, and their encodings. *)
Definition eleven_events : list (@Event example_json) :=
  map (fun n => Some (String (ascii_of_nat (97 + n)) "")) (seq 0 11).

Definition eleven_texts : list string :=
  map (fun n => String (ascii_of_nat (97 + n)) "") (seq 0 11).

(** A client with three events waiting in its queue. *)
Definition loaded_client : FakeDCClient :=
  set_eventJson NewFakeDockerComposeClient
    {| buf := ["a"; "b"; "c"]; cap := 100; closed := false |}.

(** * Properties *)

Local Open Scope list_scope.

(** ** Appending strings *)

Lemma string_app_cons c s t :
  (String c s ++ t)%string = String c (s ++ t)%string.
Proof. reflexivity. Qed.

Lemma string_app_nil_l t : ("" ++ t)%string = t.
Proof. reflexivity. Qed.

Lemma string_app_nil_r s : (s ++ "")%string = s.
Proof.
  induction s as [|c s IH]; [done|]. by rewrite string_app_cons, IH.
Qed.


(** ** Lifecycle calls *)

Section Lifecycle.

Implicit Types (c : FakeDCClient) (k : Call) (calls : list Call).

(** The reassignment [err := c.DownError; c.DownError = err] stores back
    the value it has just read: a [Down] is the append and nothing else. *)
Lemma Down_eq c proj :
  Down c proj =
  (set_DownCalls c (DownCalls c ++ [ {| Proj := proj |} ]), DownError c).
Proof.
  unfold Down. cbn [DownError set_DownCalls].
  destruct (DownError c) eqn:E; [|reflexivity].
  unfold set_DownError, set_DownCalls; cbn. by rewrite E.
Qed.

Lemma Rm_eq c specs :
  Rm c specs =
  (set_RmCalls c (RmCalls c ++ [ {| Specs := specs |} ]), RmError c).
Proof.
  unfold Rm. cbn [RmError set_RmCalls].
  destruct (RmError c) eqn:E; [|reflexivity].
  unfold set_RmError, set_RmCalls; cbn. by rewrite E.
Qed.

Ltac exec_cases k :=
  destruct k; cbn [exec]; rewrite ?Down_eq, ?Rm_eq; unfold Up; cbn;
  rewrite ?app_nil_r; try reflexivity.

Lemma exec_DownError c k : DownError (exec c k).1 = DownError c.
Proof. exec_cases k. Qed.

Lemma exec_RmError c k : RmError (exec c k).1 = RmError c.
Proof. exec_cases k. Qed.

Lemma exec_UpCalls c k : UpCalls (exec c k).1 = UpCalls c ++ up_records [k].
Proof. exec_cases k. Qed.

Lemma exec_DownCalls c k :
  DownCalls (exec c k).1 = DownCalls c ++ down_records [k].
Proof. exec_cases k. Qed.

Lemma exec_RmCalls c k : RmCalls (exec c k).1 = RmCalls c ++ rm_records [k].
Proof. exec_cases k. Qed.

(** What a call returns is decided by the fault of its own kind. *)
Lemma exec_result c k :
  (exec c k).2 =
  match k with
  | CallUp _ _ => None
  | CallDown _ => DownError c
  | CallRm _ => RmError c
  end.
Proof. exec_cases k. Qed.

Lemma run_cons c k calls :
  run c (k :: calls) =
  ((run (exec c k).1 calls).1, (exec c k).2 :: (run (exec c k).1 calls).2).
Proof.
  simpl. destruct (exec c k) as [c1 r]; simpl.
  by destruct (run c1 calls).
Qed.

Lemma run_DownError c calls : DownError (run c calls).1 = DownError c.
Proof.
  revert c. induction calls as [|k calls IH]; intros c; [done|].
  rewrite run_cons; simpl. by rewrite IH, exec_DownError.
Qed.

Lemma run_RmError c calls : RmError (run c calls).1 = RmError c.
Proof.
  revert c. induction calls as [|k calls IH]; intros c; [done|].
  rewrite run_cons; simpl. by rewrite IH, exec_RmError.
Qed.

Lemma run_length c calls : length (run c calls).2 = length calls.
Proof.
  revert c. induction calls as [|k calls IH]; intros c; [done|].
  rewrite run_cons; simpl. by rewrite IH.
Qed.

Lemma run_result c calls (i : nat) k :
  calls !! i = Some k ->
  (run c calls).2 !! i =
  Some match k with
       | CallUp _ _ => None
       | CallDown _ => DownError c
       | CallRm _ => RmError c
       end.
Proof.
  revert c i. induction calls as [|k0 calls IH]; intros c i Hi; [done|].
  rewrite run_cons; simpl. destruct i as [|i]; simpl in *.
  - injection Hi as ->. by rewrite exec_result.
  - rewrite (IH _ _ Hi). by rewrite exec_DownError, exec_RmError.
Qed.

Lemma run_UpCalls c calls :
  UpCalls (run c calls).1 = UpCalls c ++ up_records calls.
Proof.
  revert c. induction calls as [|k calls IH]; intros c.
  - simpl. by rewrite app_nil_r.
  - rewrite run_cons; simpl fst. rewrite IH, exec_UpCalls, <- app_assoc.
    f_equal. simpl. by destruct k.
Qed.

Lemma run_DownCalls c calls :
  DownCalls (run c calls).1 = DownCalls c ++ down_records calls.
Proof.
  revert c. induction calls as [|k calls IH]; intros c.
  - simpl. by rewrite app_nil_r.
  - rewrite run_cons; simpl fst. rewrite IH, exec_DownCalls, <- app_assoc.
    f_equal. simpl. by destruct k.
Qed.

Lemma run_RmCalls c calls :
  RmCalls (run c calls).1 = RmCalls c ++ rm_records calls.
Proof.
  revert c. induction calls as [|k calls IH]; intros c.
  - simpl. by rewrite app_nil_r.
  - rewrite run_cons; simpl fst. rewrite IH, exec_RmCalls, <- app_assoc.
    f_equal. simpl. by destruct k.
Qed.

Lemma exec_records c k : records (exec c k).1 = S (records c).
Proof.
  unfold records.
  rewrite exec_UpCalls, exec_DownCalls, exec_RmCalls, !length_app.
  destruct k; simpl; lia.
Qed.

(** C3. An injected fault is sticky: when [DownError] holds [e] and
    nothing assigns the field, every [Down] of any later sequence of
    lifecycle calls returns [e] and leaves [e] in place; [Rm] does the same
    with [RmError]; and neither a call nor an assignment to one of the two
    fields changes the other. *)
Theorem injected_faults_are_sticky c calls :
  (forall e, DownError c = Some e ->
     DownError (run c calls).1 = Some e /\
     forall (i : nat) proj, calls !! i = Some (CallDown proj) ->
       (run c calls).2 !! i = Some (Some e)) /\
  (forall e, RmError c = Some e ->
     RmError (run c calls).1 = Some e /\
     forall (i : nat) specs, calls !! i = Some (CallRm specs) ->
       (run c calls).2 !! i = Some (Some e)) /\
  DownError (run c calls).1 = DownError c /\
  RmError (run c calls).1 = RmError c /\
  (forall v, RmError (set_DownError c v) = RmError c) /\
  (forall v, DownError (set_RmError c v) = DownError c).
Proof.
  repeat split; try done.
  - by rewrite run_DownError.
  - intros i proj Hi. rewrite (run_result c calls i _ Hi). by f_equal.
  - by rewrite run_RmError.
  - intros i specs Hi. rewrite (run_result c calls i _ Hi). by f_equal.
  - apply run_DownError.
  - apply run_RmError.
Qed.

(** C4. Every lifecycle call, whatever it returns, appends one record to
    the history of its kind and touches no other record: after a sequence
    of calls each history is the former history followed by the records of
    the calls of that kind, in call order, every [UpCall] holding the spec
    and the flag it was called with. *)
Theorem histories_follow_calls c calls :
  UpCalls (run c calls).1 = UpCalls c ++ up_records calls /\
  DownCalls (run c calls).1 = DownCalls c ++ down_records calls /\
  RmCalls (run c calls).1 = RmCalls c ++ rm_records calls /\
  records (run c calls).1 = records c + length calls /\
  length (run c calls).2 = length calls /\
  (forall k, records (exec c k).1 = S (records c)) /\
  (forall spec b,
     UpCalls (Up c spec b).1 =
     UpCalls c ++ [ {| Spec := spec; ShouldBuild := b |} ]) /\
  (forall proj,
     DownCalls (Down c proj).1 = DownCalls c ++ [ {| Proj := proj |} ]) /\
  (forall specs,
     RmCalls (Rm c specs).1 = RmCalls c ++ [ {| Specs := specs |} ]).
Proof.
  split_and!.
  - apply run_UpCalls.
  - apply run_DownCalls.
  - apply run_RmCalls.
  - revert c. induction calls as [|k calls IH]; intros c.
    + simpl. lia.
    + rewrite run_cons; simpl fst. rewrite IH, exec_records. simpl. lia.
  - apply run_length.
  - apply exec_records.
  - done.
  - intros proj. by rewrite Down_eq.
  - intros specs. by rewrite Rm_eq.
Qed.

(** C9. [Version] never fails: it returns the variant ["tilt-fake"] and a
    version that is never empty, the configured [VersionOutput] when there
    is one and ["v1.29.2"] otherwise. *)
Theorem Version_never_fails c :
  (Version c).2 = None /\
  (Version c).1.2 = "tilt-fake" /\
  (Version c).1.1 <> "" /\
  (VersionOutput c = "" -> (Version c).1.1 = "v1.29.2") /\
  (VersionOutput c <> "" -> (Version c).1.1 = VersionOutput c).
Proof.
  unfold Version. destruct (VersionOutput c) as [|a s] eqn:E; simpl.
  - by repeat split.
  - by repeat split.
Qed.

End Lifecycle.

(** ** Log streams *)

Section Logs.

Context `{Clock}.

Lemma log_lines_lookup msgs : forall tick (i : nat),
  log_lines tick msgs !! i = log_line (tick + i) <$> msgs !! i.
Proof.
  induction msgs as [|s msgs IH]; intros tick i; [done|].
  destruct i as [|i]; simpl.
  - by rewrite Nat.add_0_r.
  - rewrite IH. by rewrite Nat.add_succ_r.
Qed.

Lemma log_lines_length msgs tick : length (log_lines tick msgs) = length msgs.
Proof. revert tick. induction msgs; intros; simpl; [done | by f_equal]. Qed.

(** With a reader that stays, a write appends its chunk. *)
Lemma Write_open p data :
  reads_left p = None ->
  Write p data =
  ({| written := written p ++ [data]; wclosed := wclosed p;
      reads_left := None |}, None).
Proof. intros E. unfold Write. by rewrite E. Qed.

(** The loop on a closed channel that still holds [msgs], when the
    scheduler keeps picking the receive: every message is written and the
    loop ends on the closed channel. *)
Lemma logs_loop_drains msgs : forall tick n rest p,
  reads_left p = None ->
  logs_loop (repeat CaseOutput (S (length msgs)) ++ rest)
            (Some {| buf := msgs; cap := n; closed := true |}) tick p =
  ({| written := written p ++ log_lines tick msgs; wclosed := wclosed p;
      reads_left := None |}, inr tt).
Proof.
  induction msgs as [|s msgs IH]; intros tick n rest p Hp.
  - simpl. unfold ret. destruct p as [w wc r]; simpl in *. subst r.
    by rewrite app_nil_r.
  - change (repeat CaseOutput (S (length (s :: msgs))) ++ rest)
      with (CaseOutput :: (repeat CaseOutput (S (length msgs)) ++ rest)).
    cbn [logs_loop recv buf closed cap].
    unfold bind at 1. unfold write. rewrite (Write_open _ _ Hp).
    unfold bind at 1. cbn [require_NoError].
    rewrite IH by done. cbn. by rewrite <- app_assoc.
Qed.

(** C1. A stream that runs to natural completion: the channel configured
    for the service holds the messages [msgs] and is closed, cancellation
    is never picked, and the reader reads to the end.  The reader gets the
    attach line of the service, one line per message in order, made of the
    RFC 3339 timestamp of the moment, a space, the message without its
    trailing white space and a line feed, and last the line
    [<service> exited with code 0]; then the writer is closed. *)
Theorem StreamLogs_natural_completion c spec msgs n rest :
  RunLogOutput c !! Service spec =
    Some {| buf := msgs; cap := n; closed := true |} ->
  let s := StreamLogs c spec (repeat CaseOutput (S (length msgs)) ++ rest) None in
  outcome s = Closed /\
  wclosed (pipe s) = true /\
  stream_lines s =
    [attach_line (Service spec)] ++ log_lines 0 msgs ++
    [exit_line (Service spec)] /\
  (forall (i : nat) m, msgs !! i = Some m ->
     stream_lines s !! (S i) =
     Some (Format_RFC3339Nano (time_Now i) +:+ " " +:+
           strings.TrimRightFunc m unicode.IsSpace +:+ LF)) /\
  length (stream_lines s) = length msgs + 2 /\
  stream_bytes s =
    attach_line (Service spec) +:+
    fold_right String.append (exit_line (Service spec)) (log_lines 0 msgs).
Proof.
  intros Hout s.
  assert (Hs : s = {| pipe := {| written := [attach_line (Service spec)] ++
                                   log_lines 0 msgs ++ [exit_line (Service spec)];
                                 wclosed := true; reads_left := None |};
                      outcome := Closed |}).
  { subst s. unfold StreamLogs. rewrite Hout. unfold logs_goroutine.
    unfold bind at 1. unfold write at 1. rewrite Write_open by done.
    unfold bind at 1. cbn [require_NoError].
    unfold bind at 1. rewrite logs_loop_drains by done.
    unfold bind at 1. unfold write at 1. rewrite Write_open by done.
    cbn. reflexivity. }
  rewrite Hs. unfold stream_lines. cbn [pipe outcome written wclosed].
  split_and!; try done.
  - intros i m Hi.
    change ((log_lines 0 msgs ++ [exit_line (Service spec)]) !! i =
            Some (log_line i m)).
    rewrite lookup_app_l by (rewrite log_lines_length; by eapply lookup_lt_Some).
    rewrite log_lines_lookup, Hi. done.
  - cbn [app length]. rewrite length_app, log_lines_length. simpl. lia.
  - unfold stream_bytes. cbn [pipe written].
    change ([attach_line (Service spec)] ++ log_lines 0 msgs ++
            [exit_line (Service spec)])
      with (attach_line (Service spec) ::
            (log_lines 0 msgs ++ [exit_line (Service spec)])).
    cbn [fold_right]. rewrite fold_right_app. cbn [fold_right].
    by rewrite string_app_nil_r.
Qed.

(** C2, as the code has it.  When the first [select] of the loop proceeds
    with the cancellation, so that no message was written, the loop ends
    and the goroutine goes on to the code after it: the reader gets the
    attach line and then the line [<service> exited with code 0], and the
    writer is closed. *)
Theorem StreamLogs_cancelled_at_once c spec rest :
  let s := StreamLogs c spec (CaseCtxDone :: rest) None in
  outcome s = Closed /\
  wclosed (pipe s) = true /\
  stream_lines s = [attach_line (Service spec); exit_line (Service spec)].
Proof. by cbn. Qed.

End Logs.

(** ** Events *)

Section Events.

Context `{Json}.

Implicit Types (c : FakeDCClient) (b : EventBus) (evt : Event).

Lemma send_room {A : Type} (ch : chan A) (v : A) :
  length (buf ch) < cap ch -> send ch v = Some (enqueue ch v).
Proof.
  intros Hlt. unfold send.
  destruct (Nat.ltb_spec (length (buf ch)) (cap ch)); [done | lia].
Qed.

Lemma send_full {A : Type} (ch : chan A) (v : A) :
  cap ch <= length (buf ch) -> send ch v = None.
Proof.
  intros Hle. unfold send.
  destruct (Nat.ltb_spec (length (buf ch)) (cap ch)); [lia | done].
Qed.

Lemma send_Some {A : Type} (ch ch' : chan A) (v : A) :
  send ch v = Some ch' -> length (buf ch) < cap ch /\ ch' = enqueue ch v.
Proof.
  unfold send. destruct (Nat.ltb_spec (length (buf ch)) (cap ch)); [|done].
  intros [= <-]. done.
Qed.

(** C7. [SendEvent] returns an error exactly when [json.Marshal] fails on
    the event, and then the client is unchanged.  When the encoding
    succeeds and the ingestion queue has room, the encoded text is put at
    the end of the queue and [nil] is returned; when the queue is full the
    call waits on the send.  The queue of a new client has capacity 100,
    and no call changes the capacity. *)
Theorem SendEvent_error_iff_encoding_fails c evt :
  (forall err, json_Marshal evt = inr err ->
     SendEvent c evt = SendReturned c (Some err)) /\
  (forall j, json_Marshal evt = inl j ->
     length (buf (eventJson c)) < cap (eventJson c) ->
     SendEvent c evt =
     SendReturned (set_eventJson c (enqueue (eventJson c) j)) None) /\
  (forall j, json_Marshal evt = inl j ->
     cap (eventJson c) <= length (buf (eventJson c)) ->
     SendEvent c evt = SendParked j) /\
  ((exists c' err, SendEvent c evt = SendReturned c' (Some err)) <->
   (exists err, json_Marshal evt = inr err)) /\
  (forall j, SendEvent c evt = SendParked j ->
     json_Marshal evt = inl j /\ cap (eventJson c) <= length (buf (eventJson c))) /\
  (forall c' r, SendEvent c evt = SendReturned c' r ->
     cap (eventJson c') = cap (eventJson c)) /\
  cap (eventJson NewFakeDockerComposeClient) = 100 /\
  buf (eventJson NewFakeDockerComposeClient) = [].
Proof.
  unfold SendEvent. split_and!; try done.
  - by intros err ->.
  - intros j -> Hlt. by rewrite send_room.
  - intros j -> Hle. by rewrite send_full.
  - split.
    + intros (c' & err & Hs). destruct (json_Marshal evt) as [j|e]; [|by eexists].
      destruct (send (eventJson c) j); discriminate.
    + intros (err & ->). by do 2 eexists.
  - intros j. destruct (json_Marshal evt) as [j'|e]; [|done].
    destruct (send (eventJson c) j') as [q|] eqn:Es; [done|].
    intros [= ->]. split; [done|].
    unfold send in Es.
    destruct (Nat.ltb_spec (length (buf (eventJson c))) (cap (eventJson c)));
      [done | lia].
  - intros c' r. destruct (json_Marshal evt) as [j|e].
    + destruct (send (eventJson c) j) as [q|] eqn:Es; [|done].
      intros [= <- <-]. by destruct (send_Some _ _ _ Es) as [_ ->].
    + by intros [= <- <-].
Qed.

End Events.

(** ** The distribution loop *)

Section Distribution.

Context `{Json}.

Implicit Types (c : FakeDCClient) (b : EventBus) (a : BusAction).

Lemma bus_step_panicked b a : panicked b -> bus_step b a = b.
Proof. intros [msg Hp]. unfold bus_step. by rewrite Hp. Qed.

Lemma bus_run_panicked sched : forall b, panicked b -> bus_run b sched = b.
Proof.
  induction sched as [|a sched IH]; intros b Hp; [done|].
  simpl. rewrite bus_step_panicked by done. by apply IH.
Qed.

(** A forwarding step that finds the channel full panics with the event
    in the message, and leaves the channel as it was. *)
Lemma forward_full b event q :
  loop b = Running ->
  buf (eventJson (client b)) = event :: q ->
  cap (events b) <= length (buf (events b)) ->
  loop (bus_step b Forward) = Panicked (no_room_message event) /\
  events (bus_step b Forward) = events b /\
  taken (bus_step b Forward) = taken b ++ [event] /\
  received (bus_step b Forward) = received b.
Proof.
  intros Hl Hq Hfull. unfold bus_step, forward, recv.
  rewrite Hl, Hq, send_full by done. done.
Qed.

(** A step that does not find the channel full keeps the loop alive,
    the channel within its capacity and every taken event delivered. *)
Ltac alive :=
  let Hp := fresh in
  intros [? Hp]; simpl in Hp;
  repeat match goal with Hl : loop _ = _ |- _ => rewrite Hl in Hp end;
  discriminate.

Lemma bus_step_room b a :
  ~ panicked b ->
  forward_finds_full b a = false ->
  length (buf (events b)) <= cap (events b) ->
  all_delivered b ->
  ~ panicked (bus_step b a) /\
  cap (events (bus_step b a)) = cap (events b) /\
  length (buf (events (bus_step b a))) <= cap (events b) /\
  all_delivered (bus_step b a).
Proof.
  intros Hnp Hroom Hlen Hall. unfold all_delivered in *.
  unfold bus_step, forward_finds_full in *.
  destruct (loop b) as [| |msg] eqn:Hl; [| |destruct Hnp; by eexists].
  - (* Running *)
    destruct a as [evt| | |]; cbn.
    + destruct (SendEvent (client b) evt); cbn; rewrite ?Hl;
        split_and!; try done; alive.
    + unfold forward, recv.
      destruct (buf (eventJson (client b))) as [|event q] eqn:Hq.
      * destruct (closed (eventJson (client b))); rewrite ?Hl;
          split_and!; try done; alive.
      * apply Nat.leb_gt in Hroom. rewrite send_room by done. cbn.
        split_and!; try done.
        -- alive.
        -- rewrite length_app; simpl; lia.
        -- by rewrite Hall, app_assoc.
    + split_and!; try done. alive.
    + unfold recv. destruct (buf (events b)) as [|v rest] eqn:Hb.
      * destruct (closed (events b)); rewrite ?Hl; split_and!;
          try done; try alive; by rewrite Hb.
      * cbn. rewrite ?Hl. split_and!; try done.
        -- alive.
        -- simpl in Hlen. lia.
        -- rewrite Hall, <- app_assoc. done.
  - (* Returned *)
    destruct a as [evt| | |]; cbn.
    + destruct (SendEvent (client b) evt); cbn; rewrite ?Hl;
        split_and!; try done; alive.
    + rewrite ?Hl. split_and!; try done; alive.
    + rewrite ?Hl. split_and!; try done; alive.
    + unfold recv. destruct (buf (events b)) as [|v rest] eqn:Hb.
      * destruct (closed (events b)); rewrite ?Hl; split_and!;
          try done; try alive; by rewrite Hb.
      * cbn. rewrite ?Hl. split_and!; try done.
        -- alive.
        -- simpl in Hlen. lia.
        -- rewrite Hall, <- app_assoc. done.
Qed.

Lemma forward_finds_full_inv b a :
  forward_finds_full b a = true ->
  a = Forward /\ loop b = Running /\
  (exists event q, buf (eventJson (client b)) = event :: q) /\
  cap (events b) <= length (buf (events b)).
Proof.
  unfold forward_finds_full. destruct a; try done.
  destruct (loop b); try done.
  destruct (buf (eventJson (client b))) as [|event q]; try done.
  intros Hf. apply Nat.leb_le in Hf. split_and!; eauto.
Qed.

(** The run of a schedule from a state in which every taken event is
    delivered. *)
Lemma bus_run_outcome sched : forall b,
  ~ panicked b ->
  length (buf (events b)) <= cap (events b) ->
  all_delivered b ->
  cap (events (bus_run b sched)) = cap (events b) /\
  length (buf (events (bus_run b sched))) <= cap (events b) /\
  (always_room b sched = true ->
     ~ panicked (bus_run b sched) /\ all_delivered (bus_run b sched)) /\
  (always_room b sched = false ->
     exists event,
       loop (bus_run b sched) = Panicked (no_room_message event) /\
       taken (bus_run b sched) =
         received (bus_run b sched) ++ buf (events (bus_run b sched)) ++ [event]).
Proof.
  induction sched as [|a sched IH]; intros b Hnp Hlen Hall.
  - simpl. split_and!; try done.
  - cbn [always_room]. change (bus_run b (a :: sched)) with (bus_run (bus_step b a) sched).
    destruct (forward_finds_full b a) eqn:Hf.
    + destruct (forward_finds_full_inv _ _ Hf) as (-> & Hl & (event & q & Hq) & Hfull).
      destruct (forward_full b event q Hl Hq Hfull) as (Hp & He & Ht & Hr).
      rewrite bus_run_panicked by (by eexists).
      rewrite He. split_and!; try done.
      intros _. exists event. split; [done|].
      unfold all_delivered in Hall. rewrite Ht, Hr, Hall, app_assoc. done.
    + destruct (bus_step_room b a Hnp Hf Hlen Hall) as (Hnp' & Hc & Hlen' & Hall').
      rewrite <- Hc in Hlen'.
      destruct (IH (bus_step b a) Hnp' Hlen' Hall') as (IH1 & IH2 & IH3 & IH4).
      rewrite Hc in IH1, IH2. split_and!; try done.
Qed.

(** C8. The channel returned by [StreamEvents] has capacity 10 and never
    holds more than 10 events.  A forwarding step that finds it full
    panics, with the event named in the message; the event is neither put
    in the channel nor silently forgotten, and nothing waits.  When no
    forwarding step of a schedule finds the channel full the loop does not
    panic and every event taken from the ingestion queue is delivered, in
    order; otherwise the run ends in the panic. *)
Theorem full_subscriber_channel_is_fatal c p sched :
  let b := bus_run (subscribe c p) sched in
  cap (StreamEvents c p).1 = 10 /\
  buf (StreamEvents c p).1 = [] /\
  (StreamEvents c p).2 = None /\
  cap (events b) = 10 /\
  length (buf (events b)) <= 10 /\
  (always_room (subscribe c p) sched = true ->
     ~ panicked b /\ taken b = received b ++ buf (events b)) /\
  (always_room (subscribe c p) sched = false ->
     exists event,
       loop b = Panicked (no_room_message event) /\
       taken b = received b ++ buf (events b) ++ [event]) /\
  (forall b' event q,
     loop b' = Running ->
     buf (eventJson (client b')) = event :: q ->
     cap (events b') <= length (buf (events b')) ->
     loop (bus_step b' Forward) = Panicked (no_room_message event) /\
     events (bus_step b' Forward) = events b').
Proof.
  intros b.
  assert (Hnp : ~ panicked (subscribe c p)) by (intros [? ?]; done).
  assert (Hlen : length (buf (events (subscribe c p))) <= cap (events (subscribe c p)))
    by (simpl; lia).
  assert (Hall : all_delivered (subscribe c p)) by done.
  destruct (bus_run_outcome sched _ Hnp Hlen Hall) as (H1 & H2 & H3 & H4).
  split_and!; try done.
  intros b' event q Hl Hq Hfull.
  destruct (forward_full b' event q Hl Hq Hfull) as (? & ? & _). done.
Qed.

End Distribution.

(** ** Project names *)

Section Names.

Import utf8.
Local Open Scope Z_scope.

Lemma byte_val_range c : 0 <= byte_val c < 256.
Proof.
  unfold byte_val. pose proof (N_ascii_bounded c) as Hb. lia.
Qed.

Lemma lor_ge_l a b : 0 <= a -> 0 <= b -> a <= Z.lor a b.
Proof.
  intros Ha Hb.
  pose proof (Z.add_lor_land a b) as Hadd.
  pose proof (Z.sub_land_same_l b a) as Hsub.
  assert (0 <= Z.land b (Z.lnot a)) by (apply Z.land_nonneg; by left).
  rewrite (Z.land_comm b a) in Hsub. lia.
Qed.

Lemma land_mask_nonneg x m : 0 <= m -> 0 <= Z.land x m.
Proof. intros Hm. apply Z.land_nonneg. by right. Qed.

Lemma shiftl_nonneg x n : 0 <= x -> 0 <= Z.shiftl x n.
Proof. intros Hx. by apply Z.shiftl_nonneg. Qed.

(** What the table [first] says about a leading byte. *)
Lemma first_Lead s0 sz lo hi :
  first s0 = Lead sz lo hi ->
  0x80 <= lo /\ hi <= 0xBF /\
  ((sz = 2%nat /\ 0xC2 <= s0 <= 0xDF) \/
   (sz = 3%nat /\ 0xE0 <= s0 <= 0xEF /\ (s0 = 0xE0 -> lo = 0xA0)) \/
   (sz = 4%nat /\ 0xF0 <= s0 <= 0xF4 /\ (s0 = 0xF0 -> lo = 0x90))).
Proof.
  unfold first, locb, hicb.
  repeat match goal with
         | |- context [ Z.ltb ?a ?b ] => destruct (Z.ltb_spec a b)
         | |- context [ Z.eqb ?a ?b ] => destruct (Z.eqb_spec a b)
         end; intros [= <- <- <-] || intros [=]; lia.
Qed.

Lemma first_AS s0 : first s0 = AS -> s0 < 0x80.
Proof.
  unfold first.
  repeat match goal with
         | |- context [ Z.ltb ?a ?b ] => destruct (Z.ltb_spec a b)
         | |- context [ Z.eqb ?a ?b ] => destruct (Z.eqb_spec a b)
         end; intros [=]; lia.
Qed.

Lemma land_ones_mod x (m : Z) n :
  m = Z.ones n -> 0 <= n -> Z.land x m = x mod 2 ^ n.
Proof. intros -> Hn. by apply Z.land_ones. Qed.

(** The rune decoded at a non-ASCII byte is not an ASCII rune, and every
    byte of its encoding is a non-ASCII byte. *)
Lemma Decode_non_ascii c t :
  0x80 <= byte_val c ->
  exists r pre post,
    DecodeRuneInString (String c t) = (r, String.length pre) /\
    String c t = (pre ++ post)%string /\
    (1 <= String.length pre)%nat /\
    0x80 <= r /\
    string_forallb high_byte pre = true.
Proof.
  intros Hc.
  assert (Hbad : exists r pre post,
             (RuneError, 1%nat) = (r, String.length pre) /\
             String c t = (pre ++ post)%string /\
             (1 <= String.length pre)%nat /\
             0x80 <= r /\
             string_forallb high_byte pre = true).
  { exists RuneError, (String c ""), t. split_and!; try done.
    simpl. unfold high_byte. destruct (Z.leb_spec 0x80 (byte_val c)); [done | lia]. }
  assert (Hhc : high_byte c = true)
    by (unfold high_byte; destruct (Z.leb_spec 0x80 (byte_val c)); [done | lia]).
  unfold DecodeRuneInString.
  destruct (first (byte_val c)) as [| |sz lo hi] eqn:Hf.
  - apply first_AS in Hf. lia.
  - exact Hbad.
  - destruct (first_Lead _ _ _ _ Hf) as (Hlo & Hhi & Hsz).
    destruct (String.length (String c t) <? sz)%nat; [exact Hbad|].
    destruct t as [|c1 t1]; [exact Hbad|].
    pose proof (byte_val_range c) as Hr0.
    pose proof (byte_val_range c1) as Hr1.
    destruct (Z.ltb_spec (byte_val c1) lo); [exact Hbad|].
    destruct (Z.ltb_spec hi (byte_val c1)); [exact Hbad|]. cbn [orb].
    assert (Hh1 : high_byte c1 = true)
      by (unfold high_byte; destruct (Z.leb_spec 0x80 (byte_val c1)); [done | lia]).
    destruct (sz <=? 2)%nat eqn:Hsz2.
    { exists (Z.lor (Z.shiftl (Z.land (byte_val c) mask2) 6) (Z.land (byte_val c1) maskx)),
             (String c (String c1 "")), t1.
      split_and!; try done; [simpl; lia | | by (cbn [string_forallb]; rewrite Hhc, Hh1)].
      apply Nat.leb_le in Hsz2.
      assert (0xC2 <= byte_val c <= 0xDF) as Hs0 by lia.
      etransitivity; [|apply lor_ge_l;
        [apply shiftl_nonneg, land_mask_nonneg; done | by apply land_mask_nonneg]].
      rewrite Z.shiftl_mul_pow2 by lia.
      rewrite (land_ones_mod _ mask2 5) by done.
      change (2 ^ 5) with 32. change (2 ^ 6) with 64.
      Z.div_mod_to_equations. lia. }
    apply Nat.leb_gt in Hsz2.
    destruct t1 as [|c2 t2]; [exact Hbad|].
    pose proof (byte_val_range c2) as Hr2.
    unfold is_cont, locb, hicb.
    destruct (Z.ltb_spec (byte_val c2) 0x80); [exact Hbad|].
    destruct (Z.ltb_spec 0xBF (byte_val c2)); [exact Hbad|]. cbn [orb negb].
    assert (Hh2 : high_byte c2 = true)
      by (unfold high_byte; destruct (Z.leb_spec 0x80 (byte_val c2)); [done | lia]).
    set (A3 := Z.shiftl (Z.land (byte_val c) mask3) 12).
    set (B3 := Z.shiftl (Z.land (byte_val c1) maskx) 6).
    set (A4 := Z.shiftl (Z.land (byte_val c) mask4) 18).
    set (B4 := Z.shiftl (Z.land (byte_val c1) maskx) 12).
    assert (HA3 : A3 = (byte_val c mod 16) * 4096).
    { unfold A3. rewrite Z.shiftl_mul_pow2 by lia.
      by rewrite (land_ones_mod _ mask3 4). }
    assert (0 <= byte_val c mod 16 < 16) by (apply Z.mod_pos_bound; lia).
    assert (0 <= byte_val c mod 8 < 8) by (apply Z.mod_pos_bound; lia).
    assert (0 <= byte_val c1 mod 64 < 64) by (apply Z.mod_pos_bound; lia).
    assert (HB3 : B3 = (byte_val c1 mod 64) * 64).
    { unfold B3. rewrite Z.shiftl_mul_pow2 by lia.
      by rewrite (land_ones_mod _ maskx 6). }
    assert (HA4 : A4 = (byte_val c mod 8) * 262144).
    { unfold A4. rewrite Z.shiftl_mul_pow2 by lia.
      by rewrite (land_ones_mod _ mask4 3). }
    assert (HB4 : B4 = (byte_val c1 mod 64) * 4096).
    { unfold B4. rewrite Z.shiftl_mul_pow2 by lia.
      by rewrite (land_ones_mod _ maskx 6). }
    destruct (sz <=? 3)%nat eqn:Hsz3.
    { exists (Z.lor (Z.lor A3 B3) (Z.land (byte_val c2) maskx)),
             (String c (String c1 (String c2 ""))), t2.
      split_and!; try done; [simpl; lia | | by (cbn [string_forallb]; rewrite Hhc, Hh1, Hh2)].
      apply Nat.leb_le in Hsz3.
      assert (0 <= A3) by lia. assert (0 <= B3) by lia.
      pose proof (lor_ge_l A3 B3 ltac:(done) ltac:(done)) as HlA.
      pose proof (lor_ge_l B3 A3 ltac:(done) ltac:(done)) as HlB.
      rewrite (Z.lor_comm B3 A3) in HlB.
      pose proof (lor_ge_l (Z.lor A3 B3) (Z.land (byte_val c2) maskx)
                    ltac:(lia) ltac:(by apply land_mask_nonneg)).
      Z.div_mod_to_equations. lia. }
    apply Nat.leb_gt in Hsz3.
    destruct t2 as [|c3 t3]; [exact Hbad|].
    destruct (Z.ltb_spec (byte_val c3) 0x80); [exact Hbad|].
    destruct (Z.ltb_spec 0xBF (byte_val c3)); [exact Hbad|]. cbn [orb negb].
    assert (Hh3 : high_byte c3 = true)
      by (unfold high_byte; destruct (Z.leb_spec 0x80 (byte_val c3)); [done | lia]).
    exists (Z.lor (Z.lor (Z.lor A4 B4) (Z.shiftl (Z.land (byte_val c2) maskx) 6))
                  (Z.land (byte_val c3) maskx)),
           (String c (String c1 (String c2 (String c3 "")))), t3.
    split_and!; try done; [simpl; lia | | by (cbn [string_forallb]; rewrite Hhc, Hh1, Hh2, Hh3)].
    assert (0 <= A4) by lia. assert (0 <= B4) by lia.
    pose proof (lor_ge_l A4 B4 ltac:(done) ltac:(done)) as HlA.
    pose proof (lor_ge_l B4 A4 ltac:(done) ltac:(done)) as HlB.
    rewrite (Z.lor_comm B4 A4) in HlB.
    pose proof (lor_ge_l (Z.lor A4 B4) (Z.shiftl (Z.land (byte_val c2) maskx) 6)
                  ltac:(lia) ltac:(by apply shiftl_nonneg, land_mask_nonneg)).
    pose proof (lor_ge_l
                  (Z.lor (Z.lor A4 B4) (Z.shiftl (Z.land (byte_val c2) maskx) 6))
                  (Z.land (byte_val c3) maskx)
                  ltac:(lia) ltac:(by apply land_mask_nonneg)).
    Z.div_mod_to_equations. lia.
Qed.

Local Close Scope Z_scope.

(** *** Slices *)

Lemma substring_0_0 s : substring 0 0 s = "".
Proof. by destruct s. Qed.

Lemma substring_all s : substring 0 (String.length s) s = s.
Proof. induction s as [|c s IH]; simpl; [done | by rewrite IH]. Qed.

Lemma string_length_app s1 s2 :
  String.length (s1 ++ s2)%string = String.length s1 + String.length s2.
Proof.
  induction s1 as [|c s1 IH]; [done|].
  rewrite string_app_cons. simpl. by rewrite IH.
Qed.

Lemma slice_take pre post :
  slice (pre ++ post)%string 0 (String.length pre) = pre.
Proof.
  unfold slice. rewrite Nat.sub_0_r.
  induction pre as [|c pre IH].
  - rewrite string_app_nil_l. apply substring_0_0.
  - rewrite string_app_cons. simpl. by rewrite IH.
Qed.

Lemma slice_drop pre post :
  slice (pre ++ post)%string (String.length pre)
        (String.length (pre ++ post)%string) = post.
Proof.
  unfold slice. induction pre as [|c pre IH].
  - rewrite string_app_nil_l. simpl. rewrite Nat.sub_0_r. apply substring_all.
  - rewrite string_app_cons. simpl. exact IH.
Qed.

Lemma slice_head c t : slice (String c t) 0 1 = String c "".
Proof. exact (slice_take (String c "") t). Qed.

Lemma slice_tail c t :
  slice (String c t) 1 (String.length (String c t)) = t.
Proof. exact (slice_drop (String c "") t). Qed.

Lemma string_filter_app p s1 s2 :
  string_filter p (s1 ++ s2)%string =
  (string_filter p s1 ++ string_filter p s2)%string.
Proof.
  induction s1 as [|c s1 IH]; [done|].
  rewrite string_app_cons. simpl. rewrite IH.
  by destruct (p c).
Qed.

Lemma string_filter_none p q s :
  (forall c, q c = true -> p c = false) ->
  string_forallb q s = true -> string_filter p s = "".
Proof.
  intros Hpq. induction s as [|c s IH]; simpl; [done|].
  intros [Hq Hs]%andb_prop. rewrite (Hpq _ Hq). by apply IH.
Qed.

(** *** The regular expression as a filter on bytes *)

Lemma Join_cons e rest :
  strings.Join (e :: rest) "" = (e ++ strings.Join rest "")%string.
Proof.
  destruct rest; [|done].
  cbn [strings.Join]. by rewrite string_app_nil_r.
Qed.

(** Joining the matches of an ASCII class gives back the bytes of the
    input that belong to the class: what does not match is dropped and
    nothing is put in its place. *)
Lemma FindAllString_fuel_filter re :
  ascii_class re ->
  forall fuel s, String.length s <= fuel ->
    strings.Join (regexp.FindAllString_fuel fuel re s) "" =
    string_filter (fun c => regexp.matches re (byte_val c)) s.
Proof.
  intros Hre. induction fuel as [|fuel IH]; intros s Hlen.
  - destruct s; [done | simpl in Hlen; lia].
  - destruct s as [|c t]; [done|].
    cbn [regexp.FindAllString_fuel regexp.step].
    destruct (Z.ltb_spec (byte_val c) RuneSelf) as [Hlt|Hge].
    + rewrite slice_tail, slice_head. simpl in Hlen. cbn [string_filter].
      destruct (regexp.matches re (byte_val c)).
      * rewrite Join_cons, IH by lia. done.
      * apply IH. lia.
    + destruct (Decode_non_ascii c t Hge)
        as (r & pre & post & Hd & Hs & Hpre & Hr & Hhigh).
      rewrite Hd.
      assert (Hno : regexp.matches re r = false).
      { destruct (regexp.matches re r) eqn:Hm; [|done].
        apply Hre in Hm. unfold RuneSelf in *. lia. }
      rewrite Hno.
      rewrite Hs, slice_drop, string_filter_app.
      rewrite (string_filter_none _ high_byte pre); [| |done].
      * apply IH. simpl in Hlen.
        assert (String.length (String c t) = String.length pre + String.length post)
          by (by rewrite Hs, string_length_app).
        simpl in *. lia.
      * intros c0 Hc0. destruct (regexp.matches re (byte_val c0)) eqn:Hm; [|done].
        apply Hre in Hm. unfold high_byte, RuneSelf in *.
        destruct (Z.leb_spec 128 (byte_val c0)); [lia | done].
Qed.

Lemma FindAllString_filter re s :
  ascii_class re ->
  strings.Join (regexp.FindAllString re s) "" =
  string_filter (fun c => regexp.matches re (byte_val c)) s.
Proof. intros Hre. by apply FindAllString_fuel_filter. Qed.

(** *** The naming rule *)

Context `{CaseTables}.

Lemma name_chars_ascii : ascii_class name_chars.
Proof.
  intros r. unfold regexp.matches, name_chars, RuneSelf. cbn.
  repeat match goal with
         | |- context [ Z.leb ?a ?b ] => destruct (Z.leb_spec a b)
         end; cbn; intros; try done; lia.
Qed.

Lemma matches_name_chars c :
  regexp.matches name_chars (byte_val c) = is_name_char c.
Proof. by destruct c as [[] [] [] [] [] [] [] []]. Qed.

Lemma contains_separator c :
  strings.contains_byte "_-" c = is_leading_separator c.
Proof. by destruct c as [[] [] [] [] [] [] [] []]. Qed.

Lemma name_char_lower_ascii c :
  is_name_char c = true ->
  strings.is_ascii_byte c = true /\ strings.is_upper_byte c = false.
Proof. by destruct c as [[] [] [] [] [] [] [] []]. Qed.

Lemma string_filter_ext p q s :
  (forall c, p c = q c) -> string_filter p s = string_filter q s.
Proof.
  intros Hpq. induction s as [|c s IH]; simpl; [done|].
  by rewrite Hpq, IH.
Qed.

Lemma string_drop_while_ext p q s :
  (forall c, p c = q c) -> string_drop_while p s = string_drop_while q s.
Proof.
  intros Hpq. induction s as [|c s IH]; simpl; [done|].
  by rewrite Hpq, IH.
Qed.

Lemma string_filter_forallb p s :
  string_forallb p (string_filter p s) = true.
Proof.
  induction s as [|c s IH]; simpl; [done|].
  destruct (p c) eqn:Hp; simpl; [by rewrite Hp | done].
Qed.

Lemma string_filter_id p s :
  string_forallb p s = true -> string_filter p s = s.
Proof.
  induction s as [|c s IH]; simpl; [done|].
  intros [-> Hs]%andb_prop. by rewrite IH.
Qed.

Lemma string_drop_while_forallb p q s :
  string_forallb p s = true ->
  string_forallb p (string_drop_while q s) = true.
Proof.
  induction s as [|c s IH]; simpl; [done|].
  intros [Hc Hs]%andb_prop. destruct (q c); [by apply IH|].
  simpl. by rewrite Hc, Hs.
Qed.

Lemma string_drop_while_idem q s :
  string_drop_while q (string_drop_while q s) = string_drop_while q s.
Proof.
  induction s as [|c s IH]; simpl; [done|].
  destruct (q c) eqn:Hq; [done|]. simpl. by rewrite Hq.
Qed.

Lemma string_drop_while_empty q s :
  string_drop_while q s = "" <-> string_forallb q s = true.
Proof.
  induction s as [|c s IH]; simpl; [done|].
  destruct (q c); simpl; [done|]. split; discriminate.
Qed.

Lemma string_forallb_filter p q s :
  string_forallb q (string_filter p s) =
  string_forallb (fun c => negb (p c) || q c) s.
Proof.
  induction s as [|c s IH]; simpl; [done|].
  destruct (p c); simpl; by rewrite IH.
Qed.

(** The code's normalization is the rule of the specification. *)
Lemma normalize_spec name : normalize name = spec_normalize name.
Proof.
  unfold normalize, spec_normalize, strip_leading_separators, keep_name_chars.
  rewrite (FindAllString_filter _ _ name_chars_ascii).
  rewrite (string_filter_ext _ is_name_char) by apply matches_name_chars.
  unfold strings.TrimLeft, strings.trimLeftASCII.
  destruct (string_filter is_name_char (strings.ToLower name)) as [|c s] eqn:E;
    [done|].
  cbn [string_is_empty orb].
  apply string_drop_while_ext, contains_separator.
Qed.

Lemma ToLower_name_chars s :
  string_forallb is_name_char s = true -> strings.ToLower s = s.
Proof.
  intros Hs. unfold strings.ToLower.
  assert (string_forallb strings.is_ascii_byte s = true /\
          string_existsb strings.is_upper_byte s = false) as [-> ->]; [|done].
  induction s as [|c s IH]; simpl; [done|].
  simpl in Hs. apply andb_prop in Hs as [Hc Hs].
  destruct (name_char_lower_ascii c Hc) as [-> ->].
  destruct (IH Hs) as [-> ->]. done.
Qed.

Lemma spec_normalize_name_chars name :
  string_forallb is_name_char (spec_normalize name) = true.
Proof.
  unfold spec_normalize, strip_leading_separators, keep_name_chars.
  apply string_drop_while_forallb, string_filter_forallb.
Qed.

Lemma spec_normalize_idem name :
  spec_normalize (spec_normalize name) = spec_normalize name.
Proof.
  pose proof (spec_normalize_name_chars name) as Hn.
  unfold spec_normalize at 1.
  rewrite (ToLower_name_chars _ Hn).
  unfold keep_name_chars. rewrite (string_filter_id _ _ Hn).
  unfold spec_normalize, strip_leading_separators.
  apply string_drop_while_idem.
Qed.

Lemma projectNameOpt_spec workDir :
  projectNameOpt workDir = spec_project_name workDir.
Proof.
  unfold projectNameOpt, spec_project_name.
  destruct workDir as [|c t]; [done|].
  cbn [string_is_empty negb]. apply normalize_spec.
Qed.

(** C5. The name [projectNameOpt] gives the project: the fallback
    ["fakedc"] for the empty working directory, and otherwise the base
    name of the directory, lowercased, cut down to the characters of
    [[a-z0-9_-]] (the others are dropped) and stripped of its leading
    ["_"] and ["-"]; a directory whose base name is ["My-App_2"] is named
    ["my-app_2"]. *)
Theorem projectNameOpt_follows_naming_rule workDir :
  projectNameOpt "" = "fakedc" /\
  projectNameOpt "" <> "" /\
  (workDir <> "" ->
   projectNameOpt workDir =
   strip_leading_separators
     (keep_name_chars (strings.ToLower (filepath.Base workDir)))) /\
  (workDir <> "" -> filepath.Base workDir = "My-App_2" ->
   projectNameOpt workDir = "my-app_2") /\
  projectNameOpt "/home/dev/My-App_2" = "my-app_2".
Proof.
  split_and!.
  - done.
  - done.
  - intros Hne. rewrite projectNameOpt_spec. by destruct workDir.
  - intros Hne Hb. rewrite projectNameOpt_spec.
    destruct workDir as [|c t]; [done|].
    unfold spec_project_name. by rewrite Hb.
  - by vm_compute.
Qed.

(** C6. The normalization is idempotent: applied to its own result it
    changes nothing, for every input, and so it leaves every derived
    project name as it is. *)
Theorem normalize_idempotent name :
  normalize (normalize name) = normalize name /\
  normalize (projectNameOpt name) = projectNameOpt name.
Proof.
  split.
  - rewrite !normalize_spec. apply spec_normalize_idem.
  - rewrite projectNameOpt_spec, normalize_spec.
    destruct name as [|c t]; [done|].
    apply spec_normalize_idem.
Qed.

(** C10. A working directory that is not empty is given the empty name
    exactly when, once its base name is lowercased, every character of
    [[a-z0-9_-]] in it is a ["_"] or a ["-"]; so it is when no character
    of the class occurs at all.  The fallback name is not used then. *)
Theorem nonempty_workdir_may_get_empty_name workDir :
  workDir <> "" ->
  (projectNameOpt workDir = "" <->
   string_forallb (fun c => negb (is_name_char c) || is_leading_separator c)
     (strings.ToLower (filepath.Base workDir)) = true) /\
  (string_existsb is_name_char (strings.ToLower (filepath.Base workDir)) = false ->
   projectNameOpt workDir = "").
Proof.
  intros Hne. rewrite projectNameOpt_spec.
  destruct workDir as [|c0 t0]; [done|].
  unfold spec_project_name, spec_normalize, strip_leading_separators,
    keep_name_chars.
  rewrite string_drop_while_empty, string_forallb_filter.
  split; [done|].
  generalize (strings.ToLower (filepath.Base (String c0 t0))).
  intros s. induction s as [|c s IH]; simpl; [done|].
  intros [-> Hs]%orb_false_elim. simpl. by apply IH.
Qed.

End Names.

(** ** The bounded loops of the library models run to their end

    The loops of [unicode/utf8] and [strings] are written with a bound on
    the number of iterations.  The bounds are never what stops them: a
    larger one gives the same result. *)

Section Bounds.

Import utf8.

Lemma scan_back_le s lim : forall fuel start,
  (scan_back s lim start fuel <= start)%Z.
Proof.
  induction fuel as [|fuel IH]; intros start; simpl; [lia|].
  destruct (start <? lim)%Z; [lia|].
  destruct (RuneStart (at_ s (Z.to_nat start))); [lia|].
  specialize (IH (start - 1)%Z). lia.
Qed.

Lemma scan_back_fuel s lim : forall fuel1 fuel2 start,
  (start - lim + 1 < Z.of_nat fuel1)%Z ->
  (start - lim + 1 < Z.of_nat fuel2)%Z ->
  scan_back s lim start fuel1 = scan_back s lim start fuel2.
Proof.
  induction fuel1 as [|fuel1 IH]; intros fuel2 start H1 H2.
  - destruct fuel2; simpl.
    + done.
    + destruct (Z.ltb_spec start lim); [done | lia].
  - destruct fuel2 as [|fuel2]; simpl.
    + destruct (Z.ltb_spec start lim); [done | lia].
    + destruct (Z.ltb_spec start lim); [done|].
      destruct (RuneStart (at_ s (Z.to_nat start))); [done|].
      apply IH; lia.
Qed.

(** The scan of [DecodeLastRuneInString] visits at most three bytes. *)
Lemma DecodeLastRuneInString_scan_fuel s fuel :
  S UTFMax <= fuel ->
  let end_ := Z.of_nat (String.length s) in
  let lim := Z.max 0 (end_ - Z.of_nat UTFMax) in
  scan_back s lim (Z.of_nat (String.length s - 1) - 1) (S UTFMax) =
  scan_back s lim (Z.of_nat (String.length s - 1) - 1) fuel.
Proof.
  intros Hfuel end_ lim. unfold UTFMax in *.
  apply scan_back_fuel; lia.
Qed.

Lemma slice_length s i :
  i <= String.length s -> String.length (slice s 0 i) = i.
Proof.
  unfold slice. rewrite Nat.sub_0_r. revert i.
  induction s as [|c s IH]; intros i Hi; simpl in *.
  - by replace i with 0 by lia.
  - destruct i as [|i]; [done|]. simpl. rewrite IH; [done | lia].
Qed.

Lemma slice_from_length s : forall i,
  i <= String.length s ->
  String.length (slice s i (String.length s)) = String.length s - i.
Proof.
  unfold slice. induction s as [|c s IH]; intros i Hi; simpl in *.
  - by replace i with 0 by lia.
  - destruct i as [|i]; simpl.
    + by rewrite substring_all.
    + apply IH. lia.
Qed.

(** A decoded rune is at least one byte wide and no wider than the input. *)
Lemma DecodeRuneInString_width s :
  s <> "" ->
  1 <= (DecodeRuneInString s).2 <= String.length s.
Proof.
  destruct s as [|c t]; [done|]. intros _.
  destruct (Z.ltb_spec (byte_val c) 0x80) as [Hlt|Hge].
  - unfold DecodeRuneInString, first.
    destruct (Z.ltb_spec (byte_val c) 128); [|lia]. simpl. lia.
  - destruct (Decode_non_ascii c t Hge) as (r & pre & post & Hd & Hs & Hpre & _).
    rewrite Hd. cbn [snd]. split; [done|].
    rewrite Hs, string_length_app. lia.
Qed.

Lemma DecodeLastRuneInString_width s :
  s <> "" ->
  1 <= (DecodeLastRuneInString s).2 <= String.length s.
Proof.
  intros Hs.
  assert (Hlen : 1 <= String.length s) by (destruct s; [done | simpl; lia]).
  unfold DecodeLastRuneInString.
  destruct (Nat.eqb_spec (String.length s) 0) as [E|_]; [lia|].
  destruct (at_ s (String.length s - 1) <? RuneSelf)%Z; [simpl; lia|].
  set (lim := Z.max 0 (Z.of_nat (String.length s) - Z.of_nat UTFMax)).
  set (back := scan_back s lim (Z.of_nat (String.length s - 1) - 1) (S UTFMax)).
  pose proof (scan_back_le s lim (S UTFMax) (Z.of_nat (String.length s - 1) - 1))
    as Hback. fold back in Hback.
  destruct (DecodeRuneInString
              (slice s (Z.to_nat (Z.max 0 back)) (String.length s)))
    as [r size].
  destruct (Nat.eqb_spec (Z.to_nat (Z.max 0 back) + size) (String.length s));
    cbn [negb snd]; lia.
Qed.

(** [lastIndexFunc] stops by itself: its loop loses at least one byte per
    iteration. *)
Lemma lastIndexFunc_loop_fuel s f truth : forall fuel1 fuel2 i,
  i <= fuel1 -> i <= fuel2 -> i <= String.length s ->
  strings.lastIndexFunc_loop fuel1 s f truth i =
  strings.lastIndexFunc_loop fuel2 s f truth i.
Proof.
  induction fuel1 as [|fuel1 IH]; intros fuel2 i H1 H2 Hi.
  - replace i with 0 by lia. by destruct fuel2.
  - destruct fuel2 as [|fuel2].
    + replace i with 0 by lia. done.
    + cbn [strings.lastIndexFunc_loop].
      destruct (Nat.eqb_spec i 0) as [|Hpos]; [done|].
      assert (Hne : slice s 0 i <> "").
      { intros E. pose proof (slice_length s i Hi) as Hl.
        rewrite E in Hl. simpl in Hl. lia. }
      pose proof (DecodeLastRuneInString_width _ Hne) as Hw.
      rewrite slice_length in Hw by done.
      destruct (DecodeLastRuneInString (slice s 0 i)) as [r size].
      cbn [snd] in Hw.
      destruct (Bool.eqb (f r) truth); [done|].
      apply IH; lia.
Qed.

(** So does the walk over the runes of a string. *)
Lemma runes_fuel_indep : forall n m u,
  String.length u <= n -> String.length u <= m ->
  runes_fuel n u = runes_fuel m u.
Proof.
  induction n as [|n IHn]; intros m u Hn Hm.
  - destruct u; [by destruct m | simpl in Hn; lia].
  - destruct m as [|m]; [destruct u; [done | simpl in Hm; lia]|].
    destruct u as [|c t]; [done|].
    cbn [runes_fuel].
    pose proof (DecodeRuneInString_width (String c t) ltac:(done)) as Hw.
    destruct (DecodeRuneInString (String c t)) as [r w]. cbn [snd] in Hw.
    f_equal.
    pose proof (slice_from_length (String c t) w ltac:(lia)) as Hl.
    cbn [String.length] in *. apply IHn; lia.
Qed.

Lemma runes_fuel_enough fuel s :
  String.length s <= fuel -> runes_fuel fuel s = runes s.
Proof. intros Hlen. by apply runes_fuel_indep. Qed.

End Bounds.

(** * Further properties *)

(** ** Lifecycle calls and the rest of the client *)

Section LifecycleFrame.

Implicit Types (c : FakeDCClient) (k : Call) (calls : list Call).

(** The client after a sequence of calls: the three histories have grown
    and nothing else has changed. *)
Lemma run_state calls : forall c,
  (run c calls).1 =
  set_RmCalls
    (set_DownCalls
       (set_UpCalls c (UpCalls c ++ up_records calls))
       (DownCalls c ++ down_records calls))
    (RmCalls c ++ rm_records calls).
Proof.
  induction calls as [|k calls IH]; intros c.
  - destruct c. cbn. by rewrite !app_nil_r.
  - rewrite run_cons. cbn [fst]. rewrite IH.
    destruct k; cbn [exec]; rewrite ?Down_eq, ?Rm_eq; unfold Up;
      cbn; rewrite <- ?app_assoc; reflexivity.
Qed.

(** X1. No sequence of lifecycle calls disturbs what the client was
    configured to answer: [Version], [Config], [ContainerID], the working
    directory behind the project name, the ingestion queue and every log
    stream are as before the calls. *)
Theorem lifecycle_calls_leave_configuration `{Clock} `{CaseTables} c calls :
  Version (run c calls).1 = Version c /\
  Config (run c calls).1 = Config c /\
  (forall spec, ContainerID (run c calls).1 spec = ContainerID c spec) /\
  projectNameOpt (WorkDir (run c calls).1) = projectNameOpt (WorkDir c) /\
  eventJson (run c calls).1 = eventJson c /\
  (forall spec sched reads,
     StreamLogs (run c calls).1 spec sched reads = StreamLogs c spec sched reads).
Proof. rewrite run_state. by split_and!. Qed.

(** X2. The client reached by a sequence of calls depends only on the
    calls of each kind and their order within the kind: two sequences with
    the same [Up] calls, the same [Down] calls and the same [Rm] calls, in
    whatever interleaving, leave the same client. *)
Theorem interleaving_of_kinds_is_irrelevant c calls1 calls2 :
  up_records calls1 = up_records calls2 ->
  down_records calls1 = down_records calls2 ->
  rm_records calls1 = rm_records calls2 ->
  (run c calls1).1 = (run c calls2).1.
Proof. intros Hu Hd Hr. by rewrite !run_state, Hu, Hd, Hr. Qed.

End LifecycleFrame.

(** ** More on project names *)

Section NameShape.

Context `{CaseTables}.

Lemma string_drop_while_head q s c t :
  string_drop_while q s = String c t -> q c = false.
Proof.
  induction s as [|c0 s IH]; simpl; [done|].
  destruct (q c0) eqn:Hq; [done|]. by intros [= <- <-].
Qed.

Lemma spec_normalize_shape name :
  spec_normalize name = "" \/ valid_project_name (spec_normalize name) = true.
Proof.
  pose proof (spec_normalize_name_chars name) as Hall.
  destruct (spec_normalize name) as [|c t] eqn:E; [by left|]. right.
  unfold spec_normalize, strip_leading_separators in E.
  apply string_drop_while_head in E.
  simpl in Hall. apply andb_prop in Hall as [Hc Ht].
  unfold valid_project_name. by rewrite Hc, E, Ht.
Qed.

(** X3. Whatever the working directory, the derived name is either empty
    or a well-formed project name: only characters of [[a-z0-9_-]], the
    first one a letter or a digit. *)
Theorem projectNameOpt_shape workDir :
  projectNameOpt workDir = "" \/
  valid_project_name (projectNameOpt workDir) = true.
Proof.
  rewrite projectNameOpt_spec. unfold spec_project_name.
  destruct workDir as [|c t]; [by right|]. apply spec_normalize_shape.
Qed.

(** X4. The names the normalization leaves alone are the empty name and
    the well-formed names, and no others. *)
Theorem normalize_fixed_points name :
  normalize name = name <-> name = "" \/ valid_project_name name = true.
Proof.
  rewrite normalize_spec. split.
  - intros Hfix. rewrite <- Hfix. apply spec_normalize_shape.
  - intros [-> | Hv]; [done|].
    destruct name as [|c t]; [done|].
    unfold valid_project_name in Hv.
    apply andb_prop in Hv as [[Hc Hs]%andb_prop Ht].
    assert (Hall : string_forallb is_name_char (String c t) = true)
      by (simpl; by rewrite Hc, Ht).
    unfold spec_normalize, keep_name_chars, strip_leading_separators.
    rewrite (ToLower_name_chars _ Hall), (string_filter_id _ _ Hall).
    simpl. by destruct (is_leading_separator c).
Qed.

(** *** Which part of the working directory counts *)

Lemma strip_trailing_separators_slash path :
  filepath.strip_trailing_separators (path +:+ "/") =
  filepath.strip_trailing_separators path.
Proof.
  induction path as [|c t IH]; [done|].
  rewrite string_app_cons. cbn [filepath.strip_trailing_separators].
  by rewrite IH.
Qed.

Lemma Base_trailing_slash path :
  path <> "" -> filepath.Base (path +:+ "/") = filepath.Base path.
Proof.
  intros Hne. destruct path as [|c t]; [done|].
  unfold filepath.Base. rewrite string_app_cons. cbn [string_is_empty].
  rewrite <- string_app_cons. by rewrite strip_trailing_separators_slash.
Qed.

(** X5. A slash at the end of a working directory that is not empty does
    not change the name. *)
Theorem projectNameOpt_trailing_slash workDir :
  workDir <> "" ->
  projectNameOpt (workDir +:+ "/") = projectNameOpt workDir.
Proof.
  intros Hne. unfold projectNameOpt.
  rewrite (Base_trailing_slash _ Hne).
  by destruct workDir.
Qed.

Lemma strip_trailing_separators_free s :
  no_separator s -> filepath.strip_trailing_separators s = s.
Proof.
  unfold no_separator. induction s as [|c t IH]; [done|].
  cbn [string_existsb filepath.strip_trailing_separators].
  intros [Hc Ht]%orb_false_elim. rewrite (IH Ht), Hc.
  by rewrite andb_false_r.
Qed.

Lemma strip_trailing_separators_app a b :
  filepath.strip_trailing_separators b <> "" ->
  filepath.strip_trailing_separators (a +:+ b) =
  a +:+ filepath.strip_trailing_separators b.
Proof.
  intros Hb. induction a as [|c a IH]; [done|].
  rewrite !string_app_cons. cbn [filepath.strip_trailing_separators].
  rewrite IH.
  destruct (a +:+ filepath.strip_trailing_separators b) as [|c' t'] eqn:E;
    [|done].
  destruct a; [|discriminate]. by rewrite string_app_nil_l in E.
Qed.

Lemma string_existsb_app p a b :
  string_existsb p (a +:+ b) = string_existsb p a || string_existsb p b.
Proof.
  induction a as [|c a IH]; [done|].
  rewrite string_app_cons. simpl. by rewrite IH, orb_assoc.
Qed.

Lemma last_element_free s :
  no_separator s -> filepath.last_element s = s.
Proof.
  unfold no_separator. destruct s as [|c t]; [done|].
  cbn [string_existsb filepath.last_element].
  intros [Hc Ht]%orb_false_elim. by rewrite Ht, Hc.
Qed.

Lemma last_element_after dir s :
  no_separator s ->
  filepath.last_element (dir +:+ String filepath.Separator s) = s.
Proof.
  intros Hs. induction dir as [|c dir IH].
  - rewrite string_app_nil_l. cbn [filepath.last_element].
    unfold no_separator in Hs. by rewrite Hs.
  - rewrite string_app_cons. cbn [filepath.last_element].
    rewrite string_existsb_app. cbn [string_existsb].
    replace (filepath.IsPathSeparator filepath.Separator) with true by done.
    by rewrite orb_true_r, IH.
Qed.

Lemma Base_last_element dir s :
  s <> "" -> no_separator s ->
  filepath.Base (dir +:+ "/" +:+ s) = s /\ filepath.Base s = s.
Proof.
  intros Hne Hs. unfold filepath.Base.
  assert (Hstrip : filepath.strip_trailing_separators s = s)
    by by apply strip_trailing_separators_free.
  split.
  - assert (E : dir +:+ "/" +:+ s = dir +:+ String filepath.Separator s)
      by done.
    rewrite E.
    replace (string_is_empty (dir +:+ String filepath.Separator s)) with false
      by (by destruct dir).
    rewrite strip_trailing_separators_app.
    + change (String filepath.Separator s) with ("/" +:+ s).
      rewrite (strip_trailing_separators_app "/" s) by (by rewrite Hstrip).
      rewrite Hstrip.
      change ("/" +:+ s) with (String filepath.Separator s).
      rewrite last_element_after by done. by destruct s.
    + change (String filepath.Separator s) with ("/" +:+ s).
      rewrite (strip_trailing_separators_app "/" s) by (by rewrite Hstrip).
      done.
  - destruct s as [|c t]; [done|]. cbn [string_is_empty].
    rewrite Hstrip, last_element_free by done. done.
Qed.

(** X6. Only the last element of the working directory counts: a
    directory and any path that ends in a slash followed by the same
    element are given the same name. *)
Theorem projectNameOpt_last_element dir elem :
  elem <> "" -> no_separator elem ->
  projectNameOpt (dir +:+ "/" +:+ elem) = projectNameOpt elem /\
  projectNameOpt elem = normalize elem.
Proof.
  intros Hne Hs. destruct (Base_last_element dir elem Hne Hs) as [Hb1 Hb2].
  unfold projectNameOpt. rewrite Hb1, Hb2.
  replace (string_is_empty (dir +:+ "/" +:+ elem)) with false
    by (by destruct dir).
  by destruct elem.
Qed.

(** *** Letter case *)

Lemma lower_byte_props c :
  strings.is_ascii_byte c = true ->
  strings.is_ascii_byte (strings.lower_byte c) = true /\
  strings.is_upper_byte (strings.lower_byte c) = false /\
  (strings.is_upper_byte c = false -> strings.lower_byte c = c).
Proof. by destruct c as [[] [] [] [] [] [] [] []]. Qed.

Lemma ToLower_ascii s :
  string_forallb strings.is_ascii_byte s = true ->
  strings.ToLower s = string_map strings.lower_byte s.
Proof.
  intros Hs. unfold strings.ToLower. rewrite Hs.
  destruct (string_existsb strings.is_upper_byte s) eqn:Hu; [done|].
  cbn [negb]. clear -Hs Hu.
  induction s as [|c s IH]; [done|].
  simpl in *. apply andb_prop in Hs as [Hc Hs].
  apply orb_false_elim in Hu as [Hcu Hu].
  destruct (lower_byte_props c Hc) as (_ & _ & Hid).
  by rewrite (Hid Hcu), <- IH.
Qed.

(** X7. For names in ASCII the letter case does not matter: two names
    that are equal once their letters are lowercased are normalized to the
    same name. *)
Theorem normalize_ignores_ascii_case name1 name2 :
  string_forallb strings.is_ascii_byte name1 = true ->
  string_forallb strings.is_ascii_byte name2 = true ->
  string_map strings.lower_byte name1 = string_map strings.lower_byte name2 ->
  normalize name1 = normalize name2.
Proof.
  intros H1 H2 Heq. rewrite !normalize_spec. unfold spec_normalize.
  by rewrite (ToLower_ascii _ H1), (ToLower_ascii _ H2), Heq.
Qed.

End NameShape.

(** ** More on log streams *)

Section LogShapes.

Context `{Clock}.

Lemma pipe_eta p :
  reads_left p = None ->
  p = {| written := written p ++ []; wclosed := wclosed p; reads_left := None |}.
Proof. destruct p as [w wc r]; simpl. intros ->. by rewrite app_nil_r. Qed.

(** The loop under any schedule, with a reader that stays: it writes the
    lines of the first [k] messages of the channel, for some [k], and then
    either leaves the loop or stays parked. *)
Lemma logs_loop_shape sched : forall output tick p,
  reads_left p = None ->
  exists k r,
    k <= length (from_option buf [] output) /\
    logs_loop sched output tick p =
      ({| written := written p ++ log_lines tick (take k (from_option buf [] output));
          wclosed := wclosed p; reads_left := None |}, r) /\
    (r = inr tt \/ r = inl Waiting).
Proof.
  induction sched as [|a sched IH]; intros output tick p Hp.
  - exists 0, (inl Waiting). split_and!; [lia | | by right].
    cbn. unfold wait. f_equal. by apply pipe_eta.
  - destruct a.
    + exists 0, (inr tt). split_and!; [lia | | by left].
      cbn. unfold ret. f_equal. by apply pipe_eta.
    + destruct output as [ch|].
      2:{ exists 0, (inl Waiting). split_and!; [lia | | by right].
          cbn. unfold wait. f_equal. by apply pipe_eta. }
      cbn [logs_loop from_option]. unfold recv.
      destruct (buf ch) as [|s rest] eqn:Hb.
      * destruct (closed ch).
        -- exists 0, (inr tt). split_and!; [lia | | by left].
           cbn. unfold ret. f_equal. by apply pipe_eta.
        -- exists 0, (inl Waiting). split_and!; [lia | | by right].
           cbn. unfold wait. f_equal. by apply pipe_eta.
      * unfold bind at 1. unfold write. rewrite (Write_open _ _ Hp).
        unfold bind at 1. cbn [require_NoError].
        edestruct (IH (Some {| buf := rest; cap := cap ch; closed := closed ch |})
                      (S tick)
                      {| written := written p ++
                           [(Format_RFC3339Nano (time_Now tick) ++ " " ++
                             strings.TrimRightFunc s unicode.IsSpace ++ LF)%string];
                         wclosed := wclosed p; reads_left := None |} eq_refl)
          as (k & r & Hk & Hrun & Hr).
        exists (S k), r. cbn [from_option buf] in *.
        split_and!; [simpl; lia | | done].
        rewrite Hrun. cbn [written wclosed take log_lines].
        by rewrite <- app_assoc.
Qed.

(** X8. Under every schedule, with a reader that reads to the end, the
    stream is the attach line, then the lines of the first [k] configured
    messages in their order, for some [k], and then either the exit line
    and the end of the stream, or nothing more while the goroutine stays
    parked.  No line is skipped, repeated or reordered, and the goroutine
    never fails. *)
Theorem StreamLogs_shape c spec sched :
  let s := StreamLogs c spec sched None in
  exists k,
    k <= length (configured_messages c spec) /\
    ((outcome s = Closed /\ wclosed (pipe s) = true /\
      stream_lines s =
        attach_line (Service spec) ::
        log_lines 0 (take k (configured_messages c spec)) ++
        [exit_line (Service spec)]) \/
     (outcome s = Waiting /\ wclosed (pipe s) = false /\
      stream_lines s =
        attach_line (Service spec) ::
        log_lines 0 (take k (configured_messages c spec)))).
Proof.
  intros s.
  destruct (logs_loop_shape sched (RunLogOutput c !! Service spec) 0
              {| written := [] ++ [attach_line (Service spec)];
                 wclosed := false; reads_left := None |}
              eq_refl) as (k & r & Hk & Hrun & Hr).
  assert (Hmsgs : from_option buf [] (RunLogOutput c !! Service spec) =
                  configured_messages c spec).
  { unfold configured_messages. by destruct (RunLogOutput c !! Service spec). }
  rewrite Hmsgs in Hk, Hrun. cbn [written wclosed] in Hrun.
  exists k. split; [done|].
  destruct Hr as [-> | ->]; [left | right].
  - assert (Hs : s = {| pipe := {| written :=
                                     ([] ++ [attach_line (Service spec)]) ++
                                     log_lines 0 (take k (configured_messages c spec)) ++
                                     [exit_line (Service spec)];
                                   wclosed := true; reads_left := None |};
                        outcome := Closed |}).
    { subst s. unfold StreamLogs, logs_goroutine.
      unfold bind at 1. unfold write at 1. rewrite Write_open by done.
      unfold bind at 1. cbn [require_NoError].
      unfold bind at 1. cbn [io_Pipe written wclosed].
      unfold attach_line in Hrun. rewrite Hrun.
      unfold bind at 1. unfold write at 1. rewrite Write_open by done.
      cbn. reflexivity. }
    by rewrite Hs.
  - assert (Hs : s = {| pipe := {| written :=
                                     ([] ++ [attach_line (Service spec)]) ++
                                     log_lines 0 (take k (configured_messages c spec));
                                   wclosed := false; reads_left := None |};
                        outcome := Waiting |}).
    { subst s. unfold StreamLogs, logs_goroutine.
      unfold bind at 1. unfold write at 1. rewrite Write_open by done.
      unfold bind at 1. cbn [require_NoError].
      unfold bind at 1. cbn [io_Pipe written wclosed].
      unfold attach_line in Hrun. rewrite Hrun. done. }
    by rewrite Hs.
Qed.

Lemma logs_loop_cancel k : forall ch tick p rest,
  reads_left p = None ->
  k <= length (buf ch) ->
  logs_loop (repeat CaseOutput k ++ CaseCtxDone :: rest) (Some ch) tick p =
    ({| written := written p ++ log_lines tick (take k (buf ch));
        wclosed := wclosed p; reads_left := None |}, inr tt).
Proof.
  induction k as [|k IH]; intros ch tick p rest Hp Hk.
  - cbn. unfold ret. f_equal. by apply pipe_eta.
  - destruct (buf ch) as [|s msgs] eqn:Hb; [simpl in Hk; lia|].
    change (repeat CaseOutput (S k) ++ CaseCtxDone :: rest)
      with (CaseOutput :: (repeat CaseOutput k ++ CaseCtxDone :: rest)).
    cbn [logs_loop]. unfold recv. rewrite Hb.
    unfold bind at 1. unfold write. rewrite (Write_open _ _ Hp).
    unfold bind at 1. cbn [require_NoError].
    rewrite IH; [|done|simpl in *; lia].
    cbn [written wclosed buf take log_lines]. by rewrite <- app_assoc.
Qed.

(** X9. A stream cancelled after [k] messages: when the receive is
    picked [k] times and the cancellation next, the reader gets the attach
    line, the lines of the first [k] messages and the exit line, and the
    stream ends; the messages left in the channel are not written. *)
Theorem StreamLogs_cancelled_after c spec ch k rest :
  RunLogOutput c !! Service spec = Some ch ->
  k <= length (buf ch) ->
  let s := StreamLogs c spec (repeat CaseOutput k ++ CaseCtxDone :: rest) None in
  outcome s = Closed /\
  stream_lines s =
    attach_line (Service spec) :: log_lines 0 (take k (buf ch)) ++
    [exit_line (Service spec)] /\
  length (stream_lines s) = k + 2.
Proof.
  intros Hout Hk s.
  assert (Hs : s = {| pipe := {| written :=
                                   ([] ++ [attach_line (Service spec)]) ++
                                   log_lines 0 (take k (buf ch)) ++
                                   [exit_line (Service spec)];
                                 wclosed := true; reads_left := None |};
                      outcome := Closed |}).
  { subst s. unfold StreamLogs, logs_goroutine. rewrite Hout.
    unfold bind at 1. unfold write at 1. rewrite Write_open by done.
    unfold bind at 1. cbn [require_NoError].
    unfold bind at 1. rewrite logs_loop_cancel by done.
    unfold bind at 1. unfold write at 1. rewrite Write_open by done.
    cbn. reflexivity. }
  rewrite Hs. unfold stream_lines. cbn [pipe outcome written].
  split_and!; try done.
  cbn [app length]. rewrite length_app, log_lines_length, length_take.
  simpl. lia.
Qed.

(** X10. A service for which no log channel was configured: the receive
    on the nil channel never proceeds, so the stream is the attach line and
    nothing more until the cancellation, which adds the exit line and ends
    it.  No content line is ever written, whatever the schedule. *)
Theorem StreamLogs_without_channel c spec sched :
  RunLogOutput c !! Service spec = None ->
  let s := StreamLogs c spec sched None in
  (head sched = Some CaseCtxDone ->
     outcome s = Closed /\
     stream_lines s = [attach_line (Service spec); exit_line (Service spec)]) /\
  (head sched <> Some CaseCtxDone ->
     outcome s = Waiting /\
     stream_lines s = [attach_line (Service spec)]).
Proof.
  intros Hout s. subst s. unfold StreamLogs. rewrite Hout.
  destruct sched as [|[] sched]; cbn; split; try done.
Qed.

End LogShapes.

(** ** Trimming the message of a log line *)

Section Trim.

Import utf8.

Lemma string_snoc_length x c :
  String.length (x +:+ String c "") = S (String.length x).
Proof. rewrite string_length_app. simpl. lia. Qed.

Lemma string_get_snoc x c :
  String.get (String.length x) (x +:+ String c "") = Some c.
Proof.
  induction x as [|a x IH]; [done|]. rewrite string_app_cons. simpl. exact IH.
Qed.

Lemma string_get_lt s : forall j,
  j < String.length s -> exists c, String.get j s = Some c.
Proof.
  induction s as [|a s IH]; intros j Hj; simpl in Hj; [lia|].
  destruct j as [|j]; simpl; [by eexists|]. apply IH. lia.
Qed.

Lemma string_get_forallb p s : forall j c,
  string_forallb p s = true -> String.get j s = Some c -> p c = true.
Proof.
  induction s as [|a s IH]; intros j c Hs Hg; [done|].
  simpl in Hs. apply andb_prop in Hs as [Ha Hs].
  destruct j as [|j]; simpl in Hg.
  - by injection Hg as <-.
  - by eapply IH.
Qed.

Lemma slice_snoc s : forall j c,
  String.get j s = Some c ->
  slice s 0 (S j) = slice s 0 j +:+ String c "".
Proof.
  unfold slice. induction s as [|a s IH]; intros j c Hg; [done|].
  destruct j as [|j]; simpl in Hg.
  - injection Hg as <-. simpl. by rewrite substring_0_0.
  - specialize (IH j c Hg). rewrite !Nat.sub_0_r in *.
    change (substring 0 (S (S j)) (String a s))
      with (String a (substring 0 (S j) s)).
    change (substring 0 (S j) (String a s))
      with (String a (substring 0 j s)).
    by rewrite IH, string_app_cons.
Qed.

Lemma slice_whole s : slice s 0 (String.length s) = s.
Proof. unfold slice. rewrite Nat.sub_0_r. apply substring_all. Qed.

Lemma slice_prefix s : forall n, exists suffix, s = slice s 0 n +:+ suffix.
Proof.
  unfold slice. induction s as [|a s IH]; intros n.
  - exists "". by destruct n.
  - rewrite Nat.sub_0_r. destruct n as [|n].
    + exists (String a s). done.
    + destruct (IH n) as [suffix Hs]. rewrite Nat.sub_0_r in Hs.
      exists suffix. simpl. rewrite string_app_cons. by rewrite <- Hs.
Qed.

Lemma at_ascii s k :
  string_forallb strings.is_ascii_byte s = true -> (at_ s k < RuneSelf)%Z.
Proof.
  intros Hs. unfold at_. destruct (String.get k s) as [c|] eqn:Hg; [|done].
  pose proof (string_get_forallb _ _ _ _ Hs Hg) as Hc.
  unfold strings.is_ascii_byte in Hc. by apply Z.ltb_lt.
Qed.

(** The last rune of a string that ends in an ASCII byte is that byte. *)
Lemma DecodeLastRuneInString_snoc_ascii x c :
  strings.is_ascii_byte c = true ->
  DecodeLastRuneInString (x +:+ String c "") = (byte_val c, 1).
Proof.
  intros Hc. unfold DecodeLastRuneInString.
  rewrite string_snoc_length. cbn [Nat.eqb].
  replace (S (String.length x) - 1) with (String.length x) by lia.
  unfold at_. rewrite string_get_snoc.
  unfold strings.is_ascii_byte in Hc. by rewrite Hc.
Qed.

Lemma string_drop_while_end_keep p x c :
  p c = false ->
  string_drop_while_end p (x +:+ String c "") = x +:+ String c "".
Proof.
  intros Hp. induction x as [|a x IH].
  - rewrite string_app_nil_l. simpl. by rewrite Hp.
  - rewrite string_app_cons. cbn [string_drop_while_end]. rewrite IH.
    by destruct x.
Qed.

Lemma string_drop_while_end_drop p x c :
  p c = true ->
  string_drop_while_end p (x +:+ String c "") = string_drop_while_end p x.
Proof.
  intros Hp. induction x as [|a x IH].
  - rewrite string_app_nil_l. simpl. by rewrite Hp.
  - rewrite string_app_cons. cbn [string_drop_while_end]. by rewrite IH.
Qed.

Lemma string_drop_while_end_ext r p q s :
  (forall c, r c = true -> p c = q c) ->
  string_forallb r s = true ->
  string_drop_while_end p s = string_drop_while_end q s.
Proof.
  intros Hpq. induction s as [|a s IH]; [done|].
  simpl. intros [Ha Hs]%andb_prop. by rewrite (IH Hs), (Hpq _ Ha).
Qed.

(** The loop of [lastIndexFunc] on a string of ASCII bytes, looking for
    the last byte that does not satisfy [f]: the bytes up to and with that
    one are the bytes before [i] without their trailing run of [f]. *)
Lemma lastIndexFunc_loop_ascii s f :
  string_forallb strings.is_ascii_byte s = true ->
  forall fuel i, i <= fuel -> i <= String.length s ->
    slice s 0 (Z.to_nat (strings.lastIndexFunc_loop fuel s f false i + 1)) =
    string_drop_while_end (fun c => f (byte_val c)) (slice s 0 i).
Proof.
  intros Hs. induction fuel as [|fuel IH]; intros i Hfuel Hi.
  - replace i with 0 by lia. simpl. unfold slice. by rewrite !substring_0_0.
  - cbn [strings.lastIndexFunc_loop].
    destruct i as [|j].
    { simpl. unfold slice. by rewrite !substring_0_0. }
    cbn [Nat.eqb].
    destruct (string_get_lt s j ltac:(lia)) as [c Hg].
    pose proof (string_get_forallb _ _ _ _ Hs Hg) as Hc.
    rewrite (slice_snoc _ _ _ Hg).
    rewrite (DecodeLastRuneInString_snoc_ascii _ _ Hc).
    replace (S j - 1) with j by lia.
    destruct (f (byte_val c)) eqn:Hf; cbn [Bool.eqb].
    + rewrite string_drop_while_end_drop by done.
      apply IH; lia.
    + rewrite string_drop_while_end_keep by done.
      replace (Z.to_nat (Z.of_nat j + 1)) with (S j) by lia.
      by rewrite (slice_snoc _ _ _ Hg).
Qed.

Lemma TrimRightFunc_ascii s f :
  string_forallb strings.is_ascii_byte s = true ->
  strings.TrimRightFunc s f =
  string_drop_while_end (fun c => f (byte_val c)) s.
Proof.
  intros Hs. unfold strings.TrimRightFunc, strings.lastIndexFunc.
  set (i := strings.lastIndexFunc_loop _ _ _ _ _).
  pose proof (at_ascii s (Z.to_nat i) Hs) as Hat.
  destruct (Z.leb_spec RuneSelf (at_ s (Z.to_nat i))); [lia|].
  rewrite andb_false_r. subst i.
  rewrite (lastIndexFunc_loop_ascii s f Hs) by lia.
  by rewrite slice_whole.
Qed.

Lemma IsSpace_ascii c :
  strings.is_ascii_byte c = true ->
  unicode.IsSpace (byte_val c) = is_ascii_space c.
Proof. by destruct c as [[] [] [] [] [] [] [] []]. Qed.

(** X11. The message part of a log line.  For every message it is a
    prefix of the message: trimming rewrites nothing.  For a message of
    ASCII bytes it is the message without the tabs, line feeds, vertical
    tabs, form feeds, carriage returns and spaces at its end; white space
    inside the message stays. *)
Theorem log_line_trims_trailing_space `{Clock} tick m :
  (exists suffix,
     m = strings.TrimRightFunc m unicode.IsSpace +:+ suffix) /\
  (string_forallb strings.is_ascii_byte m = true ->
   log_line tick m =
   Format_RFC3339Nano (time_Now tick) +:+ " " +:+
   string_drop_while_end is_ascii_space m +:+ LF).
Proof.
  split.
  - unfold strings.TrimRightFunc. apply slice_prefix.
  - intros Hm. unfold log_line. rewrite (TrimRightFunc_ascii _ _ Hm).
    by rewrite (string_drop_while_end_ext strings.is_ascii_byte
                  (fun c => unicode.IsSpace (byte_val c)) is_ascii_space m
                  IsSpace_ascii Hm).
Qed.

End Trim.

(** ** More on events *)

Section EventFlow.

Context `{Json}.

Implicit Types (c : FakeDCClient) (b : EventBus) (a : BusAction).

Lemma encodings_cons evt evts :
  encodings (evt :: evts) =
  match json_Marshal evt with
  | inl j => j :: encodings evts
  | inr _ => encodings evts
  end.
Proof. unfold encodings. simpl. by destruct (json_Marshal evt). Qed.

(** X13. A producer whose events fit in the ingestion queue: every call
    returns, with an error exactly for the events that cannot be encoded,
    and the queue ends up with the former content followed by the encodings
    of the other events in the order of the calls.  When this fills the
    queue, the next event that can be encoded parks its sender. *)
Theorem send_events_fill_the_queue evts : forall c,
  length (buf (eventJson c)) + length (encodings evts) <= cap (eventJson c) ->
  buf (eventJson (send_events c evts).1) =
    buf (eventJson c) ++ encodings evts /\
  cap (eventJson (send_events c evts).1) = cap (eventJson c) /\
  Forall2 (fun evt r => exists c', r = SendReturned c' (send_error evt))
    evts (send_events c evts).2 /\
  (length (buf (eventJson c)) + length (encodings evts) = cap (eventJson c) ->
   forall evt j, json_Marshal evt = inl j ->
     SendEvent (send_events c evts).1 evt = SendParked j).
Proof.
  induction evts as [|evt evts IH]; intros c Hfit.
  - cbn. rewrite app_nil_r. split_and!; try done.
    intros Hfull evt j Hj. unfold SendEvent. rewrite Hj, send_full; [done|].
    cbn in Hfull. lia.
  - rewrite encodings_cons in *. cbn [send_events]. unfold SendEvent, send_error.
    destruct (json_Marshal evt) as [j|err] eqn:Hm.
    + cbn [length] in Hfit. rewrite send_room by lia.
      specialize (IH (set_eventJson c (enqueue (eventJson c) j))).
      cbn [set_eventJson eventJson enqueue buf cap] in IH.
      rewrite length_app in IH. cbn [length] in IH.
      destruct (IH ltac:(lia)) as (Hb & Hc & Hr & Hfull).
      destruct (send_events (set_eventJson c (enqueue (eventJson c) j)) evts)
        as [c'' rs] eqn:Hs.
      cbn [fst snd] in *. split_and!.
      * by rewrite Hb, <- app_assoc.
      * done.
      * constructor; [|done]. eexists. by rewrite Hm.
      * intros Hall. apply Hfull. cbn [length] in Hall. lia.
    + destruct (IH c Hfit) as (Hb & Hc & Hr & Hfull).
      destruct (send_events c evts) as [c'' rs] eqn:Hs.
      cbn [fst snd] in *. split_and!; try done.
      constructor; [|done]. eexists. by rewrite Hm.
Qed.

(** *** From the senders to the subscriber *)

Lemma sent_cons a sched :
  sent (a :: sched) =
  match a with Produce evt => evt :: sent sched | _ => sent sched end.
Proof. unfold sent. by destruct a. Qed.

(** One step moves events along and loses none: the events taken by the
    loop followed by the ones still queued are the former ones followed by
    the encoding of the event sent, if one was sent and could be encoded. *)
Lemma encodings_sent_one a :
  encodings (sent [a]) =
  match a with
  | Produce evt =>
    match json_Marshal evt with
    | inl j => [j]
    | inr _ => []
    end
  | _ => []
  end.
Proof.
  destruct a; try done. unfold encodings, sent. simpl.
  by destruct (json_Marshal evt).
Qed.

Lemma bus_step_flow b a :
  ~ panicked b ->
  length (buf (eventJson (client b))) + length (encodings (sent [a]))
    <= cap (eventJson (client b)) ->
  taken (bus_step b a) ++ buf (eventJson (client (bus_step b a))) =
    taken b ++ buf (eventJson (client b)) ++ encodings (sent [a]) /\
  cap (eventJson (client (bus_step b a))) = cap (eventJson (client b)).
Proof.
  intros Hnp Hfit. rewrite encodings_sent_one in *. unfold bus_step.
  destruct (loop b) as [| |msg] eqn:Hl; [| |destruct Hnp; by eexists].
  - destruct a as [evt| | |].
    + unfold SendEvent.
      destruct (json_Marshal evt) as [j|err] eqn:Hm.
      * cbn in Hfit. rewrite send_room by lia. cbn. done.
      * cbn. by rewrite !app_nil_r.
    + unfold forward, recv. cbn. rewrite app_nil_r.
      destruct (buf (eventJson (client b))) as [|event q] eqn:Hq.
      * destruct (closed (eventJson (client b))); by rewrite Hq.
      * destruct (send (events b) event); cbn; by rewrite <- app_assoc.
    + cbn. by rewrite app_nil_r.
    + cbn. rewrite app_nil_r. by destruct (recv (events b)).
  - destruct a as [evt| | |].
    + unfold SendEvent.
      destruct (json_Marshal evt) as [j|err] eqn:Hm.
      * cbn in Hfit. rewrite send_room by lia. cbn. done.
      * cbn. by rewrite !app_nil_r.
    + cbn. by rewrite app_nil_r.
    + cbn. by rewrite app_nil_r.
    + cbn. rewrite app_nil_r. by destruct (recv (events b)).
Qed.

Lemma bus_run_flow sched : forall b,
  ~ panicked b ->
  length (buf (events b)) <= cap (events b) ->
  all_delivered b ->
  length (buf (eventJson (client b))) + length (encodings (sent sched))
    <= cap (eventJson (client b)) ->
  always_room b sched = true ->
  ~ panicked (bus_run b sched) /\
  all_delivered (bus_run b sched) /\
  taken (bus_run b sched) ++ buf (eventJson (client (bus_run b sched))) =
    taken b ++ buf (eventJson (client b)) ++ encodings (sent sched).
Proof.
  induction sched as [|a sched IH]; intros b Hnp Hlen Hall Hfit Hroom.
  - cbn. by rewrite app_nil_r.
  - cbn [always_room] in Hroom. apply andb_prop in Hroom as [Hf Hroom].
    apply negb_true_iff in Hf.
    change (bus_run b (a :: sched)) with (bus_run (bus_step b a) sched).
    destruct (bus_step_room b a Hnp Hf Hlen Hall) as (Hnp' & Hc & Hlen' & Hall').
    rewrite <- Hc in Hlen'.
    assert (Hsplit : encodings (sent (a :: sched)) =
                     encodings (sent [a]) ++ encodings (sent sched)).
    { unfold encodings, sent. change (a :: sched) with ([a] ++ sched).
      by rewrite !omap_app. }
    rewrite Hsplit, length_app in Hfit.
    destruct (bus_step_flow b a Hnp ltac:(lia)) as [Hflow Hcap].
    assert (Hfit' : length (buf (eventJson (client (bus_step b a)))) +
                    length (encodings (sent sched))
                    <= cap (eventJson (client (bus_step b a)))).
    { rewrite Hcap.
      assert (length (taken (bus_step b a) ++
                      buf (eventJson (client (bus_step b a)))) =
              length (taken b ++ buf (eventJson (client b)) ++
                      encodings (sent [a]))) as Hl by by rewrite Hflow.
      rewrite !length_app in Hl.
      assert (length (taken b) <= length (taken (bus_step b a))).
      { unfold bus_step, forward. destruct (loop b); try done.
        - destruct a; cbn; try done.
          + by destruct (SendEvent (client b) evt).
          + destruct (recv (eventJson (client b))); try done.
            destruct (send (events b) v); cbn; rewrite length_app; lia.
          + by destruct (recv (events b)).
        - destruct a; cbn; try done.
          + by destruct (SendEvent (client b) evt).
          + by destruct (recv (events b)). }
      lia. }
    destruct (IH _ Hnp' Hlen' Hall' Hfit' Hroom) as (H1 & H2 & H3).
    split_and!; try done.
    by rewrite H3, app_assoc, Hflow, Hsplit, <- !app_assoc.
Qed.

(** X14. From the senders to the subscriber, in order.  For a
    subscription on a client whose queue can take everything the schedule
    sends, and as long as no forward finds the subscriber's channel full:
    what the subscriber has read, followed by what waits in its channel,
    followed by what is still in the ingestion queue, is what the queue held
    at the start followed by the encodings of the events sent, in the order
    of the sends.  Nothing is lost, repeated or reordered on the way. *)
Theorem events_arrive_in_order c p sched :
  length (buf (eventJson c)) + length (encodings (sent sched))
    <= cap (eventJson c) ->
  always_room (subscribe c p) sched = true ->
  let b := bus_run (subscribe c p) sched in
  received b ++ buf (events b) ++ buf (eventJson (client b)) =
    buf (eventJson c) ++ encodings (sent sched).
Proof.
  intros Hfit Hroom b.
  assert (Hnp : ~ panicked (subscribe c p)) by (intros [? ?]; done).
  destruct (bus_run_flow sched (subscribe c p) Hnp ltac:(simpl; lia)
              ltac:(done) Hfit Hroom) as (_ & Hall & Hflow).
  unfold all_delivered in Hall. fold b in Hall, Hflow.
  rewrite app_assoc, <- Hall, Hflow. done.
Qed.

End EventFlow.

(** ** Overflow, cancellation and several subscribers *)

Section EventEdges.

Context `{Json}.

Implicit Types (c : FakeDCClient) (b : EventBus) (a : BusAction).

Lemma bus_run_app b sched1 sched2 :
  bus_run b (sched1 ++ sched2) = bus_run (bus_run b sched1) sched2.
Proof. apply fold_left_app. Qed.

(** Sending events that can all be encoded, with room in the queue. *)
Lemma bus_run_produce evts : forall b js,
  ~ panicked b ->
  map json_Marshal evts = map inl js ->
  length (buf (eventJson (client b))) + length js <= cap (eventJson (client b)) ->
  buf (eventJson (client (bus_run b (map Produce evts)))) =
    buf (eventJson (client b)) ++ js /\
  events (bus_run b (map Produce evts)) = events b /\
  loop (bus_run b (map Produce evts)) = loop b /\
  taken (bus_run b (map Produce evts)) = taken b /\
  received (bus_run b (map Produce evts)) = received b.
Proof.
  induction evts as [|evt evts IH]; intros b js Hnp Hjs Hfit.
  - destruct js; [|done]. cbn. by rewrite app_nil_r.
  - destruct js as [|j js]; [done|]. cbn [map] in Hjs.
    injection Hjs as Hj Hjs. cbn [length] in Hfit.
    change (bus_run b (map Produce (evt :: evts)))
      with (bus_run (bus_step b (Produce evt)) (map Produce evts)).
    assert (Hstep : bus_step b (Produce evt) =
                    {| client := set_eventJson (client b)
                                   (enqueue (eventJson (client b)) j);
                       events := events b; loop := loop b; taken := taken b;
                       received := received b |}).
    { unfold bus_step, SendEvent. rewrite Hj, send_room by lia.
      destruct (loop b) eqn:Hl; try done. destruct Hnp. by eexists. }
    rewrite Hstep.
    edestruct (IH {| client := set_eventJson (client b)
                                 (enqueue (eventJson (client b)) j);
                     events := events b; loop := loop b; taken := taken b;
                     received := received b |} js) as (H1 & H2 & H3 & H4 & H5).
    + intros [msg Hp]. apply Hnp. by exists msg.
    + done.
    + cbn. rewrite length_app. simpl. lia.
    + cbn in *. split_and!; try done. by rewrite H1, <- app_assoc.
Qed.

(** Forwarding [k] events while the subscriber's channel has room. *)
Lemma bus_run_forwards k : forall b,
  loop b = Running ->
  length (buf (events b)) + k <= cap (events b) ->
  k <= length (buf (eventJson (client b))) ->
  loop (bus_run b (repeat Forward k)) = Running /\
  buf (events (bus_run b (repeat Forward k))) =
    buf (events b) ++ take k (buf (eventJson (client b))) /\
  cap (events (bus_run b (repeat Forward k))) = cap (events b) /\
  buf (eventJson (client (bus_run b (repeat Forward k)))) =
    drop k (buf (eventJson (client b))) /\
  taken (bus_run b (repeat Forward k)) =
    taken b ++ take k (buf (eventJson (client b))) /\
  received (bus_run b (repeat Forward k)) = received b.
Proof.
  induction k as [|k IH]; intros b Hl Hroom Hk.
  - cbn. by rewrite !app_nil_r.
  - destruct (buf (eventJson (client b))) as [|event q] eqn:Hq;
      [simpl in Hk; lia|].
    change (bus_run b (repeat Forward (S k)))
      with (bus_run (bus_step b Forward) (repeat Forward k)).
    assert (Hstep : bus_step b Forward =
              {| client := set_eventJson (client b)
                   {| buf := q; cap := cap (eventJson (client b));
                      closed := closed (eventJson (client b)) |};
                 events := enqueue (events b) event; loop := Running;
                 taken := taken b ++ [event]; received := received b |}).
    { unfold bus_step, forward, recv. rewrite Hl, Hq, send_room by lia. done. }
    rewrite Hstep.
    edestruct (IH {| client := set_eventJson (client b)
                       {| buf := q; cap := cap (eventJson (client b));
                          closed := closed (eventJson (client b)) |};
                     events := enqueue (events b) event; loop := Running;
                     taken := taken b ++ [event]; received := received b |})
      as (H1 & H2 & H3 & H4 & H5 & H6).
    + done.
    + cbn. rewrite length_app. simpl. lia.
    + cbn. simpl in Hk. lia.
    + cbn in *. split_and!; try done.
      * by rewrite H2, <- app_assoc.
      * by rewrite H5, <- app_assoc.
Qed.

(** X15. More events than the subscriber's channel takes.  When events
    that can all be encoded, more than the capacity of the channel, are sent
    to a client with an empty queue that has room for them, and the loop
    then forwards with nobody reading: the channel gets the first ten in
    their order, and the forward of the eleventh panics, naming it.  The
    events after the eleventh stay in the ingestion queue. *)
Theorem overflow_after_capacity c p evts js :
  buf (eventJson c) = [] ->
  map json_Marshal evts = map inl js ->
  10 < length js <= cap (eventJson c) ->
  let b := bus_run (subscribe c p) (map Produce evts ++ repeat Forward 11) in
  buf (events b) = take 10 js /\
  received b = [] /\
  buf (eventJson (client b)) = drop 11 js /\
  exists j, js !! 10 = Some j /\ loop b = Panicked (no_room_message j).
Proof.
  intros Hempty Hjs Hlen b.
  assert (Hnp : ~ panicked (subscribe c p)) by (intros [? ?]; done).
  destruct (bus_run_produce evts (subscribe c p) js Hnp Hjs)
    as (Hq & He & Hl & Ht & Hr).
  { cbn. rewrite Hempty. simpl. lia. }
  remember (bus_run (subscribe c p) (map Produce evts)) as b1 eqn:Eb1.
  assert (Hq1 : buf (eventJson (client b1)) = js)
    by (rewrite Hq; cbn; by rewrite Hempty).
  assert (Hbuf1 : buf (events b1) = []) by by rewrite He.
  assert (Hcap1 : cap (events b1) = 10) by by rewrite He.
  assert (Hrec1 : received b1 = []) by by rewrite Hr.
  clear Hq He Ht Hr.
  destruct (bus_run_forwards 10 b1) as (Hl2 & He2 & Hc2 & Hq2 & Ht2 & Hr2).
  { by rewrite Hl. }
  { rewrite Hbuf1, Hcap1. simpl. lia. }
  { rewrite Hq1. lia. }
  remember (bus_run b1 (repeat Forward 10)) as b2 eqn:Eb2.
  assert (Hb : b = bus_step b2 Forward).
  { subst b b2 b1. change 11 with (10 + 1). rewrite repeat_app.
    by rewrite !bus_run_app. }
  rewrite Hq1 in Hq2, He2. rewrite Hbuf1 in He2. rewrite Hcap1 in Hc2.
  rewrite app_nil_l in He2.
  destruct (drop 10 js) as [|j q] eqn:Hd.
  { apply (f_equal length) in Hd. rewrite length_drop in Hd. simpl in Hd. lia. }
  assert (Hfull : cap (events b2) <= length (buf (events b2)))
    by (rewrite Hc2, He2, length_take; lia).
  destruct (forward_full b2 j q Hl2 Hq2 Hfull) as (Hp & Hev & Htk & Hrc).
  rewrite Hb. split_and!.
  - by rewrite Hev.
  - by rewrite Hrc, Hr2.
  - replace (drop 11 js) with q
      by (change 11 with (10 + 1); by rewrite <- drop_drop, Hd).
    unfold bus_step, forward, recv. by rewrite Hl2, Hq2, send_full.
  - exists j. split; [|done].
    rewrite <- (Nat.add_0_r 10), <- lookup_drop, Hd. done.
Qed.

(** *** After the cancellation *)

Lemma bus_step_returned b a :
  loop b = Returned ->
  loop (bus_step b a) = Returned /\
  taken (bus_step b a) = taken b /\
  delivered (bus_step b a) = delivered b /\
  exists more,
    buf (eventJson (client (bus_step b a))) =
    buf (eventJson (client b)) ++ more.
Proof.
  intros Hl. unfold bus_step, delivered. rewrite Hl.
  destruct a as [evt| | |].
  - unfold SendEvent. destruct (json_Marshal evt) as [j|err].
    + destruct (send (eventJson (client b)) j) as [q|] eqn:Hs; cbn.
      * apply send_Some in Hs as [_ ->]. split_and!; try done. by eexists.
      * rewrite Hl. split_and!; try done. exists []. by rewrite app_nil_r.
    + cbn. split_and!; try done. exists []. by rewrite app_nil_r.
  - rewrite Hl. split_and!; try done. exists []. by rewrite app_nil_r.
  - rewrite Hl. split_and!; try done. exists []. by rewrite app_nil_r.
  - unfold recv. destruct (buf (events b)) as [|v rest] eqn:Hb.
    + destruct (closed (events b)); rewrite Hl, ?Hb; split_and!; try done;
        exists []; by rewrite app_nil_r.
    + cbn. split_and!; try done.
      * by rewrite <- app_assoc.
      * exists []. by rewrite app_nil_r.
Qed.

Lemma bus_run_returned sched : forall b,
  loop b = Returned ->
  loop (bus_run b sched) = Returned /\
  taken (bus_run b sched) = taken b /\
  delivered (bus_run b sched) = delivered b /\
  exists more,
    buf (eventJson (client (bus_run b sched))) =
    buf (eventJson (client b)) ++ more.
Proof.
  induction sched as [|a sched IH]; intros b Hl.
  - cbn. split_and!; try done. exists []. by rewrite app_nil_r.
  - change (bus_run b (a :: sched)) with (bus_run (bus_step b a) sched).
    destruct (bus_step_returned b a Hl) as (Hl1 & Ht1 & Hd1 & more1 & Hq1).
    destruct (IH _ Hl1) as (Hl2 & Ht2 & Hd2 & more2 & Hq2).
    split_and!; try congruence.
    exists (more1 ++ more2). by rewrite Hq2, Hq1, <- app_assoc.
Qed.

(** X16. Once the loop has seen the cancellation it has returned for
    good: whatever is sent, forwarded or read afterwards, it takes no
    further event and never panics; the subscriber can still read what was
    in its channel, and it gets nothing new; the events sent later pile up
    in the ingestion queue. *)
Theorem cancelled_loop_takes_nothing b sched :
  loop b = Running ->
  let b' := bus_run b (Cancel :: sched) in
  loop b' = Returned /\
  taken b' = taken b /\
  delivered b' = delivered b /\
  exists more,
    buf (eventJson (client b')) = buf (eventJson (client b)) ++ more.
Proof.
  intros Hl b'. subst b'.
  change (bus_run b (Cancel :: sched)) with (bus_run (bus_step b Cancel) sched).
  assert (Hstep : bus_step b Cancel =
                  {| client := client b; events := events b; loop := Returned;
                     taken := taken b; received := received b |}).
  { unfold bus_step. by rewrite Hl. }
  rewrite Hstep.
  by destruct (bus_run_returned sched
                 {| client := client b; events := events b; loop := Returned;
                    taken := taken b; received := received b |} eq_refl)
    as (? & ? & ? & ?).
Qed.

End EventEdges.

(** ** Two subscribers *)

Section Sharing.

Context `{Json}.

Implicit Types (b : EventBus) (s : TwoSubscribers) (a : SubAction).

Lemma bus_step_sound b (act : BusAction) : sound b -> sound (bus_step b act).
Proof.
  intros [Hlen [[Hnp Hall] | [Hp Hex]]].
  2:{ rewrite bus_step_panicked by done. split; [done|]. by right. }
  destruct (forward_finds_full b act) eqn:Hf.
  - destruct (forward_finds_full_inv _ _ Hf) as (-> & Hl & (event & q & Hq) & Hfull).
    destruct (forward_full b event q Hl Hq Hfull) as (Hp & He & Ht & Hr).
    split; [by rewrite He|]. right. split; [by eexists|].
    exists event. unfold delivered. by rewrite Ht, He, Hr, Hall.
  - destruct (bus_step_room b act Hnp Hf Hlen Hall) as (Hnp' & Hc & Hlen' & Hall').
    split; [by rewrite Hc|]. by left.
Qed.

Lemma sound_delivered_taken b x : sound b -> x ∈ delivered b -> x ∈ taken b.
Proof.
  intros [_ [[_ ->] | [_ [event ->]]]] Hx; [done|].
  apply elem_of_app. by left.
Qed.

(** A subscription acting by itself moves events from the queue to its
    own [taken] and changes nothing else of the queue. *)
Lemma sub_step_flow b a :
  ~ panicked b ->
  taken (bus_step b (sub_action a)) ++
    buf (eventJson (client (bus_step b (sub_action a)))) =
  taken b ++ buf (eventJson (client b)).
Proof.
  intros Hnp. unfold bus_step.
  destruct (loop b) as [| |msg] eqn:Hl; [| |destruct Hnp; by eexists].
  - destruct a; cbn.
    + unfold forward, recv.
      destruct (buf (eventJson (client b))) as [|event q] eqn:Hq.
      * destruct (closed (eventJson (client b))); by rewrite Hq.
      * destruct (send (events b) event); cbn; by rewrite <- app_assoc.
    + done.
    + by destruct (recv (events b)).
  - destruct a; cbn; try done. by destruct (recv (events b)).
Qed.

Lemma panicked_with_client b c : panicked (with_client b c) <-> panicked b.
Proof. done. Qed.

Lemma sound_with_client b c : sound b -> sound (with_client b c).
Proof. done. Qed.

(** A step does nothing once a loop has panicked, and otherwise is the
    step of the subscription it names. *)
Lemma two_step_cases s :
  (forall x, two_step s x = s) \/
  ((forall x, two_step s x =
      if x.1 then
        {| shared := client (bus_step (with_client (first_sub s) (shared s))
                               (sub_action x.2));
           first_sub := bus_step (with_client (first_sub s) (shared s))
                          (sub_action x.2);
           second_sub := second_sub s |}
      else
        {| shared := client (bus_step (with_client (second_sub s) (shared s))
                               (sub_action x.2));
           first_sub := first_sub s;
           second_sub := bus_step (with_client (second_sub s) (shared s))
                           (sub_action x.2) |}) /\
   ~ panicked (with_client (first_sub s) (shared s)) /\
   ~ panicked (with_client (second_sub s) (shared s))).
Proof.
  unfold two_step, panicked. cbn [with_client loop].
  destruct (loop (first_sub s)) as [| |msg1];
    destruct (loop (second_sub s)) as [| |msg2];
    try (by left);
    right; (split_and!; [done | by intros [? ?] | by intros [? ?]]).
Qed.

Lemma two_step_shares s (x : bool * SubAction) q0 :
  shares s q0 -> shares (two_step s x) q0.
Proof.
  intros (Hperm & Hs1 & Hs2).
  destruct (two_step_cases s) as [Hstuck | (Hgo & Hnp1 & Hnp2)].
  { rewrite Hstuck. by split_and!. }
  rewrite Hgo. destruct x as [[] a]; cbn [fst snd].
  - pose proof (sub_step_flow (with_client (first_sub s) (shared s)) a Hnp1)
      as Hflow.
    cbn [with_client taken client] in Hflow.
    unfold shares. cbn [shared first_sub second_sub]. split_and!.
    + rewrite Permutation_app_swap_app, Hflow, Permutation_app_swap_app.
      exact Hperm.
    + apply bus_step_sound. by apply sound_with_client.
    + done.
  - pose proof (sub_step_flow (with_client (second_sub s) (shared s)) a Hnp2)
      as Hflow.
    cbn [with_client taken client] in Hflow.
    unfold shares. cbn [shared first_sub second_sub]. split_and!.
    + rewrite Hflow. exact Hperm.
    + done.
    + apply bus_step_sound. by apply sound_with_client.
Qed.

Lemma two_run_shares sched : forall s q0,
  shares s q0 -> shares (two_run s sched) q0.
Proof.
  induction sched as [|x sched IH]; intros s q0 Hs; [done|].
  apply IH. by apply two_step_shares.
Qed.

(** X17. Two subscriptions on one client share the ingestion queue; they
    do not each get every event.  Under every schedule the events taken by
    the first loop, those taken by the second and those still queued are,
    together, exactly the events the queue held.  So when the queued events
    are all different, no event that reached one subscriber has reached the
    other. *)
Theorem subscribers_split_the_events c p1 p2 sched :
  let s := two_run (subscribe_twice c p1 p2) sched in
  taken (first_sub s) ++ taken (second_sub s) ++ buf (eventJson (shared s))
    ≡ₚ buf (eventJson c) /\
  (NoDup (buf (eventJson c)) ->
   forall x, x ∈ delivered (first_sub s) -> x ∉ delivered (second_sub s)).
Proof.
  intros s.
  assert (Hstart : shares (subscribe_twice c p1 p2) (buf (eventJson c))).
  { unfold shares, subscribe_twice, sound, delivered, panicked. cbn.
    split_and!; try done; try lia; left; split; try done; intros [? ?]; done. }
  destruct (two_run_shares sched _ _ Hstart) as (Hperm & Hs1 & Hs2).
  fold s in Hperm, Hs1, Hs2. split; [done|].
  intros Hnd x Hx1 Hx2.
  apply (sound_delivered_taken _ _ Hs1) in Hx1.
  apply (sound_delivered_taken _ _ Hs2) in Hx2.
  rewrite <- Hperm in Hnd.
  apply NoDup_app in Hnd as (_ & Hdisj & _).
  apply (Hdisj x Hx1). apply elem_of_app. by left.
Qed.

End Sharing.

(** ** The status cell *)

Section StatusCell.

Context `{Ui}.

Implicit Types (props : OverviewTableStatusProps).

Lemma string_is_empty_app_cons c s t :
  string_is_empty (String c s +:+ t) = false.
Proof. done. Qed.

Ltac cell :=
  cbn; rewrite ?string_is_empty_app_cons; cbn.

(** X18. The cell is left empty exactly for the status [None] and for a
    status the component does not know; every other status is shown, with
    a message that is not empty. *)
Theorem status_cell_empty_iff props :
  (OverviewTableStatus props = None <->
   status props = ResourceStatus.None \/ status props = ResourceStatus.Other) /\
  (forall e, OverviewTableStatus props = Some e -> msg (link_of e) <> "").
Proof.
  unfold OverviewTableStatus.
  destruct props as [st name dur build hd];
    cbn [status isBuild hold lastBuildDur resourceName].
  split.
  - destruct st, build; cell;
      try (destruct (string_is_empty (PendingBuildDescription hd)); cbn);
      (split; [try done; auto | intros [|]; done]).
  - intros e. destruct st, build; cell;
      try (destruct (string_is_empty (PendingBuildDescription hd)); cbn);
      intros [= <-]; done.
Qed.

(** X19. A tooltip is shown in one case only: a build that is pending and
    for which [PendingBuildDescription] gives a text; the tooltip carries
    that text.  In every other case the link is shown bare. *)
Theorem status_cell_tooltip props title content :
  OverviewTableStatus props = Some (Tooltip title content) <->
  status props = ResourceStatus.Pending /\ isBuild props = true /\
  title = PendingBuildDescription (hold props) /\ title <> "" /\
  content = {| to := encpath_overview (resourceName props);
               className := "is-pending"; icon := Some PendingSvg;
               msg := "Update Pending" |}.
Proof.
  unfold OverviewTableStatus.
  destruct props as [st name dur build hd];
    cbn [status isBuild hold lastBuildDur resourceName].
  destruct st, build; cell;
    try (split; [done | by intros (? & ? & _)]).
  destruct (PendingBuildDescription hd) as [|c t] eqn:E; cbn.
  - split; [done|]. by intros (_ & _ & -> & Hne & _).
  - split.
    + by intros [= <- <-].
    + by intros (_ & _ & -> & _ & ->).
Qed.

(** X20. The class of the link tells the status: two cells that are shown
    with the same class come from the same status, and the link always
    leads to the overview of the resource. *)
Theorem status_cell_class_tells_status props1 props2 e1 e2 :
  OverviewTableStatus props1 = Some e1 ->
  OverviewTableStatus props2 = Some e2 ->
  to (link_of e1) = encpath_overview (resourceName props1) /\
  (className (link_of e1) = className (link_of e2) ->
   status props1 = status props2).
Proof.
  unfold OverviewTableStatus.
  destruct props1 as [st1 name1 dur1 build1 hd1];
  destruct props2 as [st2 name2 dur2 build2 hd2];
    cbn [status isBuild hold lastBuildDur resourceName].
  destruct st1, build1; cell;
    try (destruct (string_is_empty (PendingBuildDescription hd1)); cbn);
    intros [= <-]; try done;
    (destruct st2, build2; cell;
     try (destruct (string_is_empty (PendingBuildDescription hd2)); cbn);
     intros [= <-]; done).
Qed.

End StatusCell.

(** ** A reader that leaves before the end *)

Section ReaderLeaves.

Context `{Clock}.

Lemma string_app_assoc a b c : (a +:+ b) +:+ c = a +:+ (b +:+ c).
Proof.
  induction a as [|x a IH]; [done|]. rewrite !string_app_cons. by rewrite IH.
Qed.

Lemma string_take_0 s : string_take 0 s = "".
Proof. apply substring_0_0. Qed.

Lemma string_take_cons n c s :
  string_take (S n) (String c s) = String c (string_take n s).
Proof. done. Qed.

Lemma string_take_all a : forall n,
  String.length a <= n -> string_take n a = a.
Proof.
  induction a as [|x a IH]; intros n Hn.
  - by destruct n.
  - destruct n as [|n]; simpl in Hn; [lia|].
    rewrite string_take_cons, IH; [done | lia].
Qed.

Lemma string_take_app_le a b : forall n,
  n <= String.length a -> string_take n (a +:+ b) = string_take n a.
Proof.
  induction a as [|x a IH]; intros n Hn.
  - replace n with 0 by (simpl in Hn; lia). by rewrite !string_take_0.
  - destruct n as [|n]; [by rewrite !string_take_0|].
    rewrite string_app_cons, !string_take_cons, IH; [done | simpl in Hn; lia].
Qed.

Lemma string_take_app_ge a b : forall n,
  String.length a <= n ->
  string_take n (a +:+ b) = a +:+ string_take (n - String.length a) b.
Proof.
  induction a as [|x a IH]; intros n Hn.
  - rewrite !string_app_nil_l. simpl. by rewrite Nat.sub_0_r.
  - destruct n as [|n]; simpl in Hn; [lia|].
    rewrite !string_app_cons, string_take_cons, IH by lia. done.
Qed.

Lemma pipe_bytes_snoc w d wc r :
  pipe_bytes {| written := w ++ [d]; wclosed := wc; reads_left := r |} =
  pipe_bytes {| written := w; wclosed := wc; reads_left := r |} +:+ d.
Proof.
  unfold pipe_bytes. cbn [written]. rewrite fold_right_app. cbn [fold_right].
  rewrite string_app_nil_r.
  induction w as [|x w IH]; cbn [fold_right]; [by rewrite string_app_nil_l|].
  by rewrite IH, string_app_assoc.
Qed.

(** Every routine that follows only appends, for a reader that stays. *)
Lemma follows_grows {A : Type} (m : Routine A) q :
  follows m -> reads_left q = None ->
  exists ext,
    pipe_bytes (m q).1 = pipe_bytes q +:+ ext /\ reads_left (m q).1 = None.
Proof.
  intros Hm Hq.
  destruct (Hm 0 {| written := written q; wclosed := wclosed q;
                    reads_left := Some 0 |} q) as (ext & Hb & Hr & _).
  { by split_and!. }
  by exists ext.
Qed.

Lemma follows_ret {A : Type} (a : A) : follows (ret a).
Proof.
  intros n p q Hb. exists "". cbn. rewrite string_app_nil_r.
  destruct Hb as (? & ? & ? & ?). split_and!; try done.
  left. rewrite Nat.sub_0_r. split_and!; try done. lia.
Qed.

Lemma follows_wait {A : Type} : follows (@wait A).
Proof.
  intros n p q Hb. exists "". cbn. rewrite string_app_nil_r.
  destruct Hb as (? & ? & ? & ?). split_and!; try done.
  left. rewrite Nat.sub_0_r. split_and!; try done. lia.
Qed.

Lemma follows_bind {A B : Type} (m : Routine A) (k : A -> Routine B) :
  follows m -> (forall a, follows (k a)) -> follows (bind m k).
Proof.
  intros Hm Hk n p q Hb.
  destruct (Hm n p q Hb) as (ext & Hq & Hr & Hcase).
  unfold bind.
  destruct (m q) as [q1 rq] eqn:Emq. destruct (m p) as [p1 rp] eqn:Emp.
  cbn [fst snd] in *.
  destruct Hcase as [(Hres & Hlen & Hb1) | ((msg & Hfail) & Hlt & Hp)].
  - subst rp. destruct rq as [stop|a].
    + exists ext. cbn [fst snd]. split_and!; try done. by left.
    + destruct (Hk a _ _ _ Hb1) as (ext2 & Hq2 & Hr2 & Hcase2).
      exists (ext +:+ ext2). split_and!.
      * by rewrite Hq2, Hq, string_app_assoc.
      * done.
      * rewrite string_length_app.
        destruct Hcase2 as [(Hres2 & Hlen2 & Hb2) | (Hfail2 & Hlt2 & Hp2)].
        -- left. split_and!; [done | lia |].
           by replace (n - (String.length ext + String.length ext2))
             with (n - String.length ext - String.length ext2) by lia.
        -- right. split_and!; [done | lia |].
           rewrite Hp2. destruct Hb1 as (_ & _ & Hbytes & _).
           destruct Hb as (_ & _ & Hbytes0 & _).
           rewrite Hbytes, Hq, <- Hbytes0, string_app_assoc.
           by rewrite string_take_app_ge.
  - subst rp. destruct rq as [stop|a].
    + exists ext. cbn [fst snd]. split_and!; try done. right. split_and!; eauto.
    + destruct (follows_grows (k a) q1 (Hk a) Hr) as (ext2 & Hq2 & Hr2).
      exists (ext +:+ ext2). split_and!.
      * by rewrite Hq2, Hq, string_app_assoc.
      * done.
      * right. rewrite string_length_app. cbn [fst snd].
        split_and!; [eauto | lia |].
        by rewrite Hp, string_take_app_le by lia.
Qed.

(** A write followed by its check. *)
Lemma follows_write {A : Type} (d msg : string) (rest : Routine A) :
  follows rest ->
  follows (do err <- write d; do _u <- require_NoError err msg; rest).
Proof.
  intros Hrest n p q (Hp & Hq & Hbytes & Hwc).
  set (q1 := {| written := written q ++ [d]; wclosed := wclosed q;
                reads_left := None |}).
  assert (Eq : (do err <- write d; do _u <- require_NoError err msg; rest) q =
               rest q1).
  { unfold bind, write, Write. by rewrite Hq. }
  assert (Hq1 : pipe_bytes q1 = pipe_bytes q +:+ d).
  { unfold q1. rewrite pipe_bytes_snoc. by unfold pipe_bytes. }
  rewrite Eq.
  destruct (Nat.leb_spec (String.length d) n) as [Hfit | Hover].
  - set (p1 := {| written := written p ++ [d]; wclosed := wclosed p;
                  reads_left := Some (n - String.length d) |}).
    assert (Ep : (do err <- write d; do _u <- require_NoError err msg; rest) p =
                 rest p1).
    { unfold bind, write, Write. rewrite Hp.
      destruct (Nat.leb_spec (String.length d) n); [done | lia]. }
    rewrite Ep.
    assert (Hp1 : pipe_bytes p1 = pipe_bytes p +:+ d).
    { unfold p1. rewrite pipe_bytes_snoc. by unfold pipe_bytes. }
    assert (Hb1 : behind (n - String.length d) p1 q1).
    { unfold behind. split_and!; try done. by rewrite Hp1, Hq1, Hbytes. }
    destruct (Hrest _ _ _ Hb1) as (ext & He & Hr & Hcase).
    exists (d +:+ ext). split_and!.
    + by rewrite He, Hq1, string_app_assoc.
    + done.
    + rewrite string_length_app.
      destruct Hcase as [(Hres & Hlen & Hb2) | (Hfail & Hlt & Hpb)].
      * left. split_and!; [done | lia |].
        by replace (n - (String.length d + String.length ext))
          with (n - String.length d - String.length ext) by lia.
      * right. split_and!; [done | lia |].
        by rewrite Hpb, Hp1, string_app_assoc, string_take_app_ge.
  - set (p1 := {| written := written p ++
                    (if (n =? 0)%nat then [] else [string_take n d]);
                  wclosed := wclosed p; reads_left := Some 0 |}).
    assert (Ep : (do err <- write d; do _u <- require_NoError err msg; rest) p =
                 (p1, inl (Failed msg))).
    { unfold bind, write, Write. rewrite Hp.
      destruct (Nat.leb_spec (String.length d) n); [lia | done]. }
    rewrite Ep. cbn [fst snd].
    assert (Hp1 : pipe_bytes p1 = pipe_bytes p +:+ string_take n d).
    { unfold p1. destruct (Nat.eqb_spec n 0) as [-> | Hn].
      - rewrite string_take_0, string_app_nil_r.
        unfold pipe_bytes. cbn [written]. by rewrite app_nil_r.
      - rewrite pipe_bytes_snoc. by unfold pipe_bytes. }
    destruct (follows_grows rest q1 Hrest eq_refl) as (ext & He & Hr).
    exists (d +:+ ext). split_and!.
    + by rewrite He, Hq1, string_app_assoc.
    + done.
    + right. rewrite string_length_app. split_and!; [by eexists | lia |].
      by rewrite string_take_app_le, Hp1 by lia.
Qed.

Lemma follows_close (msg : string) :
  follows (do err <- close; require_NoError err msg).
Proof.
  intros n p q (Hp & Hq & Hbytes & Hwc). exists "".
  cbn. rewrite string_app_nil_r, Nat.sub_0_r.
  split_and!; try done. left. split_and!; try done. lia.
Qed.

Lemma follows_logs_loop sched : forall output tick,
  follows (logs_loop sched output tick).
Proof.
  induction sched as [|a sched IH]; intros output tick.
  - apply follows_wait.
  - destruct a; [apply follows_ret|].
    cbn [logs_loop]. destruct output as [ch|]; [|apply follows_wait].
    destruct (recv ch) as [s ch'| |];
      [| apply follows_ret | apply follows_wait].
    apply follows_write, IH.
Qed.

Lemma follows_logs_goroutine output service sched :
  follows (logs_goroutine output service sched).
Proof.
  unfold logs_goroutine. apply follows_write.
  apply follows_bind; [apply follows_logs_loop|]. intros _.
  apply follows_write, follows_close.
Qed.

(** X12. A reader that closes its end after [n] bytes gets the first [n]
    bytes of the stream a reader reading to the end gets under the same
    schedule, and all of it when that stream is shorter: the bytes it sees
    are never out of place.  If it sees the writer closed it has seen the
    whole stream. *)
Theorem leaving_reader_sees_a_prefix c spec sched n :
  let part := StreamLogs c spec sched (Some n) in
  let full := StreamLogs c spec sched None in
  stream_bytes part = string_take n (stream_bytes full) /\
  (outcome part = Closed ->
   stream_bytes part = stream_bytes full /\ outcome full = Closed).
Proof.
  intros part full. subst part full. unfold StreamLogs, stream_bytes.
  destruct (follows_logs_goroutine (RunLogOutput c !! Service spec)
              (Service spec) sched n (io_Pipe (Some n)) (io_Pipe None))
    as (ext & He & Hr & Hcase).
  { unfold behind. by split_and!. }
  destruct (logs_goroutine (RunLogOutput c !! Service spec) (Service spec)
              sched (io_Pipe None)) as [q1 rq].
  destruct (logs_goroutine (RunLogOutput c !! Service spec) (Service spec)
              sched (io_Pipe (Some n))) as [p1 rp].
  cbn [fst snd] in *. unfold pipe_bytes in *. cbn [io_Pipe written fold_right] in He.
  rewrite string_app_nil_l in He.
  destruct Hcase as [(Hres & Hlen & (_ & _ & Hbytes & _)) | ((msg & Hfail) & Hlt & Hp)].
  - subst rp. unfold pipe_bytes in Hbytes.
    assert (Hsame : fold_right String.append "" (written p1) =
                    fold_right String.append "" (written q1))
      by exact Hbytes.
    destruct rq as [stop|u]; cbn [pipe outcome]; rewrite Hsame, He;
      (split; [by rewrite string_take_all | done]).
  - subst rp. cbn [pipe outcome]. cbn [io_Pipe written fold_right] in Hp.
    rewrite string_app_nil_l in Hp. rewrite Hp.
    destruct rq as [stop|u]; cbn [pipe outcome]; by rewrite He.
Qed.

End ReaderLeaves.

(** * Worked instances *)

(** The library models on sample inputs; the third message ends in a
    no-break space and an ideographic space. *)

Example TrimRightFunc_samples :
  strings.TrimRightFunc "b " unicode.IsSpace = "b" /\
  strings.TrimRightFunc ("  two words" +:+ " " +:+ LF) unicode.IsSpace =
    "  two words" /\
  strings.TrimRightFunc "café 　" unicode.IsSpace = "café" /\
  strings.TrimRightFunc "   " unicode.IsSpace = "" /\
  strings.TrimRightFunc "" unicode.IsSpace = "".
Proof. by vm_compute. Qed.

Example Base_samples :
  map filepath.Base
    ["/home/dev/My-App_2"; "/srv/app/"; "app"; "/"; "//"; ""; "."] =
  ["My-App_2"; "app"; "app"; "/"; "/"; "."; "."].
Proof. by vm_compute. Qed.

Example projectNameOpt_samples :
  map (@projectNameOpt example_tables)
    [""; "/home/dev/My-App_2"; "/srv/__Café Blog!"; "/tmp/!!!"; "/tmp/---"; "/"] =
  ["fakedc"; "my-app_2"; "cafblog"; ""; ""; ""].
Proof. by vm_compute. Qed.

Lemma StreamLogs_natural_completion_witness :
  let s := @StreamLogs example_clock web_client web
             [CaseOutput; CaseOutput; CaseOutput] None in
  outcome s = Closed /\
  stream_lines s =
    [ "Attaching to web" +:+ LF;
      "2006-01-02T15:04:05.000000001Z a" +:+ LF;
      "2006-01-02T15:04:05.000000002Z b" +:+ LF;
      "web exited with code 0" +:+ LF ].
Proof.
  destruct (@StreamLogs_natural_completion example_clock web_client web
              ["a"; "b "] 2 [] eq_refl) as (Hout & _ & Hlines & _).
  split; [exact Hout | exact Hlines].
Defined.

(** C2, as stated, at the service ["web"] with no content and the
    cancellation picked by the first [select]: the stream is not the attach
    line alone, its last line is the exit trailer. *)
Lemma StreamLogs_cancelled_counterexample :
  let s := @StreamLogs example_clock quiet_client web [CaseCtxDone] None in
  stream_lines s <> [ "Attaching to web" +:+ LF ] /\
  length (stream_lines s) = 2 /\
  last (stream_lines s) = Some ("web exited with code 0" +:+ LF) /\
  outcome s = Closed.
Proof. split_and!; [discriminate | reflexivity..]. Qed.

Lemma injected_faults_are_sticky_witness :
  let calls := [CallDown demo; CallRm [web]; CallUp web true; CallDown demo;
                CallRm []] in
  DownError faulty_client = Some down_fault /\
  RmError faulty_client = Some rm_fault /\
  (run faulty_client calls).2 !! 3 = Some (Some down_fault) /\
  (run faulty_client calls).2 !! 4 = Some (Some rm_fault) /\
  DownError (run faulty_client calls).1 = Some down_fault /\
  RmError (run faulty_client calls).1 = Some rm_fault.
Proof.
  intros calls.
  destruct (injected_faults_are_sticky faulty_client calls) as (HD & HR & _).
  destruct (HD down_fault eq_refl) as [HD1 HD2].
  destruct (HR rm_fault eq_refl) as [HR1 HR2].
  split_and!; [reflexivity | reflexivity | | | exact HD1 | exact HR1].
  - exact (HD2 3 demo eq_refl).
  - exact (HR2 4 [] eq_refl).
Defined.

Lemma Version_never_fails_witness :
  (Version NewFakeDockerComposeClient).1.1 = "v1.29.2" /\
  (Version NewFakeDockerComposeClient).2 = None /\
  (Version versioned_client).1.1 = "v2.17.3".
Proof.
  destruct (Version_never_fails NewFakeDockerComposeClient)
    as (Herr & _ & _ & Hdefault & _).
  destruct (Version_never_fails versioned_client)
    as (_ & _ & _ & _ & Hset).
  split_and!; [exact (Hdefault eq_refl) | exact Herr | ].
  refine (Hset _). discriminate.
Defined.

Lemma projectNameOpt_follows_naming_rule_witness :
  "/home/dev/My-App_2" <> "" /\
  filepath.Base "/home/dev/My-App_2" = "My-App_2" /\
  @projectNameOpt example_tables "/home/dev/My-App_2" = "my-app_2" /\
  @projectNameOpt example_tables "/srv/__Café Blog!" =
    strip_leading_separators (keep_name_chars "__café blog!") /\
  strip_leading_separators (keep_name_chars "__café blog!") = "cafblog".
Proof.
  assert (Hne : "/home/dev/My-App_2" <> "") by discriminate.
  assert (Hne' : "/srv/__Café Blog!" <> "") by discriminate.
  destruct (@projectNameOpt_follows_naming_rule example_tables
              "/home/dev/My-App_2") as (_ & _ & _ & Hbase & _).
  destruct (@projectNameOpt_follows_naming_rule example_tables
              "/srv/__Café Blog!") as (_ & _ & Hrule & _).
  split_and!;
    [exact Hne | reflexivity | exact (Hbase Hne eq_refl) | exact (Hrule Hne')
    | reflexivity].
Defined.

Lemma nonempty_workdir_may_get_empty_name_witness :
  "/tmp/!!!" <> "" /\
  @projectNameOpt example_tables "/tmp/!!!" = "" /\
  "/tmp/---" <> "" /\
  @projectNameOpt example_tables "/tmp/---" = "".
Proof.
  assert (H1 : "/tmp/!!!" <> "") by discriminate.
  assert (H2 : "/tmp/---" <> "") by discriminate.
  destruct (@nonempty_workdir_may_get_empty_name example_tables "/tmp/!!!" H1)
    as [_ Hnone].
  destruct (@nonempty_workdir_may_get_empty_name example_tables "/tmp/---" H2)
    as [[_ Hseps] _].
  split_and!; [exact H1 | exact (Hnone eq_refl) | exact H2 | exact (Hseps eq_refl)].
Defined.

Lemma SendEvent_error_iff_encoding_fails_witness :
  @SendEvent example_json NewFakeDockerComposeClient None =
    SendReturned NewFakeDockerComposeClient
      (Some (errors_New "json: unsupported value")) /\
  @SendEvent example_json NewFakeDockerComposeClient (Some "{}") =
    SendReturned
      (set_eventJson NewFakeDockerComposeClient
         {| buf := ["{}"]; cap := 100; closed := false |}) None /\
  @SendEvent example_json congested_client (Some "{}") = SendParked "{}" /\
  (cap (eventJson congested_client) <= length (buf (eventJson congested_client))) /\
  cap (eventJson (set_eventJson NewFakeDockerComposeClient
         {| buf := ["{}"]; cap := 100; closed := false |})) = 100.
Proof.
  destruct (@SendEvent_error_iff_encoding_fails example_json
              NewFakeDockerComposeClient None) as (Herr & _).
  destruct (@SendEvent_error_iff_encoding_fails example_json
              NewFakeDockerComposeClient (Some "{}"))
    as (_ & Hok & _ & _ & _ & Hcap & _).
  destruct (@SendEvent_error_iff_encoding_fails example_json
              congested_client (Some "{}")) as (_ & _ & Hfull & _ & Hparked & _).
  assert (Hroom : length (buf (eventJson NewFakeDockerComposeClient)) <
                  cap (eventJson NewFakeDockerComposeClient)) by (simpl; lia).
  assert (Hcong : cap (eventJson congested_client) <=
                  length (buf (eventJson congested_client)))
    by (vm_compute; lia).
  split_and!.
  - exact (Herr _ eq_refl).
  - exact (Hok "{}" eq_refl Hroom).
  - exact (Hfull "{}" eq_refl Hcong).
  - exact (proj2 (Hparked "{}" (Hfull "{}" eq_refl Hcong))).
  - exact (Hcap _ _ (Hok "{}" eq_refl Hroom)).
Defined.

Lemma full_subscriber_channel_is_fatal_witness :
  (let b := @bus_run example_json (subscribe NewFakeDockerComposeClient demo)
              keeping_up in
   ~ panicked b /\
   received b = ["a"] /\
   buf (events b) = ["b"; "c"; "d"; "e"; "f"; "g"; "h"; "i"; "j"; "k"] /\
   taken b = received b ++ buf (events b)) /\
  (let b := @bus_run example_json (subscribe NewFakeDockerComposeClient demo)
              overflowing in
   exists event,
     loop b = Panicked (no_room_message event) /\
     taken b = received b ++ buf (events b) ++ [event]) /\
  (loop (@bus_step example_json full_bus (@Forward example_json)) =
     Panicked (no_room_message "k") /\
   events (@bus_step example_json full_bus (@Forward example_json)) =
     events full_bus).
Proof.
  split; [|split].
  - destruct (@full_subscriber_channel_is_fatal example_json
                NewFakeDockerComposeClient demo keeping_up)
      as (_ & _ & _ & _ & _ & Hroom & _).
    destruct (Hroom eq_refl) as [Halive Hall].
    split_and!; [exact Halive | reflexivity | reflexivity | exact Hall].
  - destruct (@full_subscriber_channel_is_fatal example_json
                NewFakeDockerComposeClient demo overflowing)
      as (_ & _ & _ & _ & _ & _ & Hfull & _).
    exact (Hfull eq_refl).
  - destruct (@full_subscriber_channel_is_fatal example_json
                NewFakeDockerComposeClient demo [])
      as (_ & _ & _ & _ & _ & _ & _ & Hstep).
    refine (Hstep full_bus "k" [] eq_refl eq_refl _). vm_compute. lia.
Defined.

Example overflowing_panics_on_the_eleventh :
  let b := @bus_run example_json (subscribe NewFakeDockerComposeClient demo)
             overflowing in
  loop b = Panicked (no_room_message "k") /\
  buf (events b) = ["a"; "b"; "c"; "d"; "e"; "f"; "g"; "h"; "i"; "j"] /\
  taken b = buf (events b) ++ ["k"].
Proof. by vm_compute. Qed.

(** A reader that closes its end after the attach line: the write of the
    exit line fails and the goroutine is stopped by [require.NoError]
    before it closes the writer. *)
Example cancelled_with_reader_gone :
  let s := @StreamLogs example_clock quiet_client web [CaseCtxDone] (Some 17) in
  stream_lines s = [ "Attaching to web" +:+ LF ] /\
  outcome s = Failed "Failed to write to fake Docker Compose logs" /\
  wclosed (pipe s) = false.
Proof. by vm_compute. Qed.

(** ** Instances of the further properties *)

Lemma interleaving_of_kinds_is_irrelevant_witness :
  (run faulty_client [CallUp web true; CallDown demo; CallRm [web]]).1 =
  (run faulty_client [CallRm [web]; CallDown demo; CallUp web true]).1.
Proof.
  exact (interleaving_of_kinds_is_irrelevant faulty_client
           [CallUp web true; CallDown demo; CallRm [web]]
           [CallRm [web]; CallDown demo; CallUp web true]
           eq_refl eq_refl eq_refl).
Defined.

Lemma normalize_fixed_points_witness :
  @normalize example_tables "my-app_2" = "my-app_2" /\
  ("my-app_2" = "" \/ valid_project_name "my-app_2" = true).
Proof.
  destruct (@normalize_fixed_points example_tables "my-app_2") as [Hto Hfrom].
  split; [exact (Hfrom (or_intror eq_refl)) | exact (Hto eq_refl)].
Defined.

Lemma projectNameOpt_trailing_slash_witness :
  @projectNameOpt example_tables "/srv/My-App_2/" =
  @projectNameOpt example_tables "/srv/My-App_2".
Proof.
  refine (@projectNameOpt_trailing_slash example_tables "/srv/My-App_2" _).
  discriminate.
Defined.

Lemma projectNameOpt_last_element_witness :
  @projectNameOpt example_tables "/home/dev/My-App_2" =
  @projectNameOpt example_tables "My-App_2".
Proof.
  refine (proj1 (@projectNameOpt_last_element example_tables "/home/dev"
                   "My-App_2" _ eq_refl)).
  discriminate.
Defined.

Lemma normalize_ignores_ascii_case_witness :
  @normalize example_tables "My-App_2" = @normalize example_tables "MY-APP_2".
Proof.
  exact (@normalize_ignores_ascii_case example_tables "My-App_2" "MY-APP_2"
           eq_refl eq_refl eq_refl).
Defined.

Lemma StreamLogs_cancelled_after_witness :
  let s := @StreamLogs example_clock web_client web
             [CaseOutput; CaseCtxDone] None in
  outcome s = Closed /\
  stream_lines s =
    [ "Attaching to web" +:+ LF;
      "2006-01-02T15:04:05.000000001Z a" +:+ LF;
      "web exited with code 0" +:+ LF ].
Proof.
  assert (Hk : 1 <= length ["a"; "b "]) by (simpl; lia).
  destruct (@StreamLogs_cancelled_after example_clock web_client web
              {| buf := ["a"; "b "]; cap := 2; closed := true |} 1 []
              eq_refl Hk) as (Hout & Hlines & _).
  split; [exact Hout | exact Hlines].
Defined.

Lemma StreamLogs_without_channel_witness :
  (let s := @StreamLogs example_clock NewFakeDockerComposeClient web
              [CaseCtxDone] None in
   outcome s = Closed /\
   stream_lines s = [ "Attaching to web" +:+ LF;
                      "web exited with code 0" +:+ LF ]) /\
  (let s := @StreamLogs example_clock NewFakeDockerComposeClient web
              [CaseOutput; CaseOutput] None in
   outcome s = Waiting /\
   stream_lines s = [ "Attaching to web" +:+ LF ]).
Proof.
  split.
  - destruct (@StreamLogs_without_channel example_clock
                NewFakeDockerComposeClient web [CaseCtxDone] eq_refl)
      as [Hdone _].
    exact (Hdone eq_refl).
  - destruct (@StreamLogs_without_channel example_clock
                NewFakeDockerComposeClient web [CaseOutput; CaseOutput] eq_refl)
      as [_ Hwait].
    refine (Hwait _). discriminate.
Defined.

Lemma log_line_trims_trailing_space_witness :
  @log_line example_clock 0 "two  words  " =
  "2006-01-02T15:04:05.000000001Z two  words" +:+ LF.
Proof.
  destruct (@log_line_trims_trailing_space example_clock 0 "two  words  ")
    as [_ Hascii].
  exact (Hascii eq_refl).
Defined.

Lemma leaving_reader_sees_a_prefix_witness :
  stream_bytes (@StreamLogs example_clock web_client web
                  [CaseOutput; CaseOutput; CaseOutput] (Some 200)) =
  stream_bytes (@StreamLogs example_clock web_client web
                  [CaseOutput; CaseOutput; CaseOutput] None).
Proof.
  destruct (@leaving_reader_sees_a_prefix example_clock web_client web
              [CaseOutput; CaseOutput; CaseOutput] 200) as [_ Hclosed].
  exact (proj1 (Hclosed eq_refl)).
Defined.

Lemma send_events_fill_the_queue_witness :
  buf (eventJson (@send_events example_json NewFakeDockerComposeClient
                    [Some "a"; None; Some "b"]).1) = ["a"; "b"] /\
  @SendEvent example_json
    (@send_events example_json congested_client []).1 (Some "{}") =
    SendParked "{}".
Proof.
  split.
  - refine (proj1 (@send_events_fill_the_queue example_json
                     [Some "a"; None; Some "b"] NewFakeDockerComposeClient _)).
    vm_compute. lia.
  - assert (Hfit : length (buf (eventJson congested_client)) +
                   length (@encodings example_json []) <=
                   cap (eventJson congested_client)) by (vm_compute; lia).
    destruct (@send_events_fill_the_queue example_json [] congested_client Hfit)
      as (_ & _ & _ & Hfull).
    exact (Hfull eq_refl (Some "{}") "{}" eq_refl).
Defined.

Lemma events_arrive_in_order_witness :
  let b := @bus_run example_json (subscribe NewFakeDockerComposeClient demo)
             keeping_up in
  received b ++ buf (events b) ++ buf (eventJson (client b)) = eleven_texts.
Proof.
  refine (@events_arrive_in_order example_json NewFakeDockerComposeClient demo
            keeping_up _ eq_refl).
  vm_compute. lia.
Defined.

Lemma overflow_after_capacity_witness :
  let b := @bus_run example_json (subscribe NewFakeDockerComposeClient demo)
             (map (@Produce example_json) eleven_events ++
              repeat (@Forward example_json) 11) in
  buf (events b) = take 10 eleven_texts /\
  exists j, eleven_texts !! 10 = Some j /\ loop b = Panicked (no_room_message j).
Proof.
  assert (Hlen : 10 < length eleven_texts <=
                 cap (eventJson NewFakeDockerComposeClient))
    by (vm_compute; lia).
  destruct (@overflow_after_capacity example_json NewFakeDockerComposeClient
              demo eleven_events eleven_texts eq_refl eq_refl Hlen)
    as (Hbuf & _ & _ & Hpanic).
  split; [exact Hbuf | exact Hpanic].
Defined.

Lemma cancelled_loop_takes_nothing_witness :
  let b := @bus_run example_json (subscribe NewFakeDockerComposeClient demo)
             [@Cancel example_json; @Produce example_json (Some "a");
              @Forward example_json] in
  loop b = Returned /\ taken b = [] /\ delivered b = [].
Proof.
  destruct (@cancelled_loop_takes_nothing example_json
              (subscribe NewFakeDockerComposeClient demo)
              [@Produce example_json (Some "a"); @Forward example_json]
              eq_refl) as (Hl & Ht & Hd & _).
  split_and!; [exact Hl | exact Ht | exact Hd].
Defined.

Lemma subscribers_split_the_events_witness :
  let s := @two_run example_json (subscribe_twice loaded_client demo demo)
             [(true, SubForward); (false, SubForward); (true, SubForward)] in
  delivered (first_sub s) = ["a"; "c"] /\
  delivered (second_sub s) = ["b"] /\
  "a" ∉ delivered (second_sub s).
Proof.
  intros s.
  destruct (@subscribers_split_the_events example_json loaded_client demo demo
              [(true, SubForward); (false, SubForward); (true, SubForward)])
    as [_ Hsplit].
  assert (Hnd : NoDup (buf (eventJson loaded_client))).
  { change (NoDup ["a"; "b"; "c"]).
    repeat (apply NoDup_cons_2;
            [intros Hx;
             repeat (apply elem_of_cons in Hx as [Hx|Hx]; [discriminate|]);
             by apply elem_of_nil in Hx|]).
    apply NoDup_nil_2. }
  assert (Hin : "a" ∈ delivered (first_sub s)) by apply list_elem_of_here.
  split_and!; [reflexivity | reflexivity | exact (Hsplit Hnd "a" Hin)].
Defined.

Lemma status_cell_empty_iff_witness :
  @OverviewTableStatus example_ui no_status = None /\
  (status no_status = ResourceStatus.None \/
   status no_status = ResourceStatus.Other) /\
  (forall e, @OverviewTableStatus example_ui healthy_build = Some e ->
     msg (link_of e) <> "").
Proof.
  destruct (@status_cell_empty_iff example_ui no_status) as [[Hto Hfrom] _].
  destruct (@status_cell_empty_iff example_ui healthy_build) as [_ Hmsg].
  split_and!; [exact (Hfrom (or_introl eq_refl)) | exact (Hto eq_refl) | exact Hmsg].
Defined.

Lemma status_cell_tooltip_witness :
  @OverviewTableStatus example_ui pending_build =
  Some (Tooltip "Update: waiting on a dependency"
          {| to := "/r/web/overview"; className := "is-pending";
             icon := Some PendingSvg; msg := "Update Pending" |}).
Proof.
  refine (proj2 (@status_cell_tooltip example_ui pending_build _ _) _).
  split_and!; [reflexivity | reflexivity | reflexivity | discriminate | reflexivity].
Defined.

Lemma status_cell_class_tells_status_witness :
  to (link_of (Tooltip "Update: waiting on a dependency"
                 {| to := "/r/web/overview"; className := "is-pending";
                    icon := Some PendingSvg; msg := "Update Pending" |})) =
  "/r/web/overview".
Proof.
  exact (proj1 (@status_cell_class_tells_status example_ui pending_build
                  pending_build _ _ eq_refl eq_refl)).
Defined.
